(** * baseclass: a shallow embedding of [_baseclass.py]

    The development follows the three mixins of the module:
    - [TrackedInstances]: the per-class registry of weakly held instances;
    - [CallPostInit]: the initializer wrapper installed by
      [__init_subclass__];
    - [InstancingArgsTracker]: the recorder [__post_init__], the
      [metadata] property and [get_mro_parameters].

    Python dictionaries are [gmap string value], Python sets are [gset],
    exceptions are an [exn] carried by a [result]. *)

From stdpp Require Import gmap strings list fin_maps fin_sets countable.

(** ** Python values, exceptions, results *)

Module Py.

(** [Empty] is the sentinel [inspect.Parameter.empty]; the other
    constructors are ordinary values a caller can pass, [PyCallable f]
    being a function object known by its name and [PyUnhashable n] a list,
    dictionary or set object known by a name. *)
Inductive value :=
  | Empty
  | PyNone
  | PyStr (s : string)
  | PyInt (z : Z)
  | PyCallable (f : string)
  | PyUnhashable (n : string).

#[export] Instance value_eq_dec : EqDecision value.
Proof. solve_decision. Defined.

Definition value_code (v : value)
  : (string + Z) + ((string + string) + bool) :=
  match v with
  | Empty => inr (inr true)
  | PyNone => inr (inr false)
  | PyStr s => inl (inl s)
  | PyInt z => inl (inr z)
  | PyCallable f => inr (inl (inl f))
  | PyUnhashable n => inr (inl (inr n))
  end.

Definition value_of_code (c : (string + Z) + ((string + string) + bool))
  : value :=
  match c with
  | inr (inr true) => Empty
  | inr (inr false) => PyNone
  | inl (inl s) => PyStr s
  | inl (inr z) => PyInt z
  | inr (inl (inl f)) => PyCallable f
  | inr (inl (inr n)) => PyUnhashable n
  end.

#[export] Instance value_countable : Countable value.
Proof.
  apply (inj_countable' value_code value_of_code).
  intros []; reflexivity.
Defined.

(** Whether [hash(v)] returns; it raises [TypeError] otherwise. *)
Definition hashable (v : value) : bool :=
  match v with PyUnhashable _ => false | _ => true end.

(** [v is inspect.Parameter.empty] *)
Definition is_empty (v : value) : bool :=
  match v with Empty => true | _ => false end.

Inductive exn :=
  AttributeError | IndexError | KeyError | TypeError | ValueError.

Inductive result (A : Type) :=
  | Ok (a : A)
  | Raise (e : exn).
Arguments Ok {A} a.
Arguments Raise {A} e.

Definition bind {A B} (r : result A) (k : A → result B) : result B :=
  match r with
  | Ok a => k a
  | Raise e => Raise e
  end.

(** A Python [dict] with string keys. *)
Abbreviation dict := (gmap string value).

(** [data.update] with a keyword dictionary: the pairs are written in order, a later pair
    replacing an earlier one and whatever [data] held. *)
Definition update (data : dict) (kw : list (string * value)) : dict :=
  foldl (λ d kv, <[kv.1 := kv.2]> d) data kw.

(** [data.pop(key, None)] used as a statement. *)
Definition pop_key (data : dict) (key : string) : dict := delete key data.

End Py.

Export Py.

(** ** [inspect.Parameter] and [inspect.signature] *)

Module Signature.

Inductive kind :=
  | POSITIONAL_ONLY
  | POSITIONAL_OR_KEYWORD
  | VAR_POSITIONAL
  | KEYWORD_ONLY
  | VAR_KEYWORD.

#[export] Instance kind_eq_dec : EqDecision kind.
Proof. solve_decision. Defined.

Definition kind_code (k : kind) : nat :=
  match k with
  | POSITIONAL_ONLY => 0
  | POSITIONAL_OR_KEYWORD => 1
  | VAR_POSITIONAL => 2
  | KEYWORD_ONLY => 3
  | VAR_KEYWORD => 4
  end.

Definition kind_of_code (n : nat) : kind :=
  match n with
  | 0 => POSITIONAL_ONLY
  | 1 => POSITIONAL_OR_KEYWORD
  | 2 => VAR_POSITIONAL
  | 3 => KEYWORD_ONLY
  | _ => VAR_KEYWORD
  end.

#[export] Instance kind_countable : Countable kind.
Proof.
  apply (inj_countable' kind_code kind_of_code).
  intros []; reflexivity.
Defined.

(** [inspect.Parameter]; the name [Parameter] is reserved in Rocq. *)
Record Param := mkParam {
  name : string;
  pkind : kind;
  default : value;
  annotation : value
}.

#[export] Instance Param_eq_dec : EqDecision Param.
Proof. solve_decision. Defined.

#[export] Instance Param_countable : Countable Param.
Proof.
  apply (inj_countable'
           (λ p, (name p, pkind p, default p, annotation p))
           (λ t, mkParam t.1.1.1 t.1.1.2 t.1.2 t.2)).
  intros []; reflexivity.
Defined.

(** [v.kind in [VAR_POSITIONAL, VAR_KEYWORD]] *)
Definition is_variadic (p : Param) : bool :=
  match pkind p with
  | VAR_POSITIONAL | VAR_KEYWORD => true
  | _ => false
  end.

(** [list(inspect.signature(base).parameters.values())]: the parameters of
    a class's initializer in declaration order, the receiver left out. *)
Abbreviation signature := (list Param).

(** Shorthands for building signatures; [Empty] is also the annotation of
    a parameter that has none. *)
Definition req (n : string) : Param :=
  mkParam n POSITIONAL_OR_KEYWORD Empty Empty.
Definition opt (n : string) (d : value) : Param :=
  mkParam n POSITIONAL_OR_KEYWORD d Empty.
Definition star (n : string) : Param := mkParam n VAR_POSITIONAL Empty Empty.
Definition starstar (n : string) : Param := mkParam n VAR_KEYWORD Empty Empty.
Definition kwonly (n : string) : Param := mkParam n KEYWORD_ONLY Empty Empty.

(** [hash(p)] hashes the name, the kind, the annotation and the default. *)
Definition hashable_param (p : Param) : bool :=
  hashable (annotation p) && hashable (default p).

End Signature.

Export Signature.

(** ** [InstancingArgsTracker]: the recorder *)

Module InstancingArgsTracker.

(** The dictionary comprehension [arg]: parameters without a default that
    are not variadic, in declaration order (the names of one signature are
    pairwise distinct, so the dictionary is this list). *)
Definition arg_of (params : signature) : list Param :=
  filter (λ p, is_empty (default p) = true ∧ is_variadic p = false) params.

(** The parameters with a default that are not variadic. *)
Definition dfl_of (params : signature) : list Param :=
  filter (λ p, is_empty (default p) = false ∧ is_variadic p = false) params.

(** The dictionary comprehension [kw]: name and default of every parameter
    with a default that is not variadic, in declaration order. *)
Definition kw_of (params : signature) : list (string * value) :=
  (λ p, (name p, default p)) <$> dfl_of params.

(** [for k, v in arg.items(): data[k] = args.pop(0) if len(args) > 0 else
    v.default] *)
Fixpoint assign_required (arg : list Param) (data : dict) (args : list value)
  : dict * list value :=
  match arg with
  | [] => (data, args)
  | p :: arg' =>
      match args with
      | a :: args' => assign_required arg' (<[name p := a]> data) args'
      | [] => assign_required arg' (<[name p := default p]> data) []
      end
  end.

(** The loop [for i in range(len(args))]: [n] iterations are left and
    [idx] is [len(arg) + i].  [params_list[idx]] raises [IndexError] out of
    range, and so does [args.pop(0)] on an empty list. *)
Fixpoint override_defaults (params_list : signature) (idx n : nat)
    (data : dict) (args : list value) : result (dict * list value) :=
  match n with
  | 0 => Ok (data, args)
  | S n' =>
      match params_list !! idx with
      | None => Raise IndexError
      | Some p =>
          if is_variadic p then Ok (data, args)
          else match args with
               | a :: args' =>
                   override_defaults params_list (S idx) n'
                     (<[name p := a]> data) args'
               | [] => Raise IndexError
               end
      end
  end.

(** [VAR_POSITIONAL in kinds or VAR_KEYWORD in kinds] *)
Definition has_variadic (params : signature) : bool :=
  existsb is_variadic params.

(** One iteration of [for base in inspect.getmro(self.__class__)], up to
    the test that decides whether the walk goes on. *)
Definition visit (params : signature) (data : dict) (args : list value)
  : result (dict * list value) :=
  let arg := arg_of params in
  let data := update data (kw_of params) in
  let '(data, args) := assign_required arg data args in
  override_defaults params (length arg) (length args) data args.

(** The walk over the method resolution order, most derived class first;
    [mro] lists the signature of each base. *)
Fixpoint walk (mro : list signature) (data : dict) (args : list value)
  : result (dict * list value) :=
  match mro with
  | [] => Ok (data, args)
  | params :: mro' =>
      bind (visit params data args) (λ '(data, args),
        if has_variadic params then walk mro' data args
        else Ok (data, args))
  end.

Definition reserved : list string := ["cls"; "self"; "args"; "kwargs"].

(** [__post_init__(self, *args, **kwargs)]: the dictionary stored in
    [self._metadata], or the exception that escapes. *)
Definition post_init (mro : list signature) (args : list value)
    (kwargs : dict) : result dict :=
  bind (walk mro ∅ args) (λ '(data, _),
    let data := kwargs ∪ data in
    Ok (foldl pop_key data reserved)).

(** [inspect.signature(base)]: the parameters of [base], or [ValueError]
    for a class that has no signature ([None]), as some built-in classes. *)
Definition signature_of (base : option signature) : result signature :=
  match base with
  | Some params => Ok params
  | None => Raise ValueError
  end.

(** The loop [for base in inspect.getmro(cls): rtn +=
    inspect.signature(base).parameters.values()]. *)
Fixpoint mro_parameter_list (mro : list (option signature))
  : result (list Param) :=
  match mro with
  | [] => Ok []
  | base :: mro' =>
      bind (signature_of base) (λ params,
        bind (mro_parameter_list mro') (λ rtn, Ok (params ++ rtn)))
  end.

(** [get_mro_parameters]: a set of [inspect.Parameter] objects; building
    the set hashes every parameter it keeps. *)
Definition get_mro_parameters (mro : list (option signature))
  : result (gset Param) :=
  bind (mro_parameter_list mro) (λ rtn,
    let kept := filter (λ v, is_variadic v = false) rtn in
    if forallb hashable_param kept then Ok (list_to_set kept)
    else Raise TypeError).

(** *** The hierarchy of the test suite *)

Definition Parent : signature :=
  [req "p1"; req "p2"; opt "p3" (PyStr "vp3")].
Definition Child : signature :=
  [req "c1"; opt "c2" (PyStr "vc2"); opt "c3" (PyStr "vc3");
   star "args"; starstar "kwargs"].
Definition Grandchild : signature :=
  [req "gc1"; opt "gc2" (PyStr "vgc2"); star "args"; starstar "kwargs"].

(** Signatures of the library classes that close every resolution order:
    [InstancingArgsTracker] inherits the initializer of [object] behind its
    wrapper, the others have no parameters. *)
Definition Tracker_sig : signature := [star "args"; starstar "kwargs"].
Definition object_sig : signature := [].

Definition mro_Parent : list signature :=
  [Parent; Tracker_sig; object_sig; object_sig; object_sig].
Definition mro_Child : list signature := Child :: mro_Parent.
Definition mro_Grandchild : list signature := Grandchild :: mro_Child.

(** *** Vocabulary for the statements *)

(** The parameters that can receive a named binding: all but the variadic
    ones, in declaration order. *)
Definition slots_of (params : signature) : list Param :=
  filter (λ p, is_variadic p = false) params.

Definition slots (mro : list signature) : list Param :=
  concat (slots_of <$> mro).

Definition slot_names (mro : list signature) : list string :=
  name <$> slots mro.

(** A signature made of required parameters, then defaulted parameters,
    then variadic collectors: no parameter follows a collector. *)
Definition plain_sig (params : signature) : Prop :=
  params = arg_of params ++ dfl_of params
           ++ filter (λ p, is_variadic p = true) params.

#[export] Instance plain_sig_dec params : Decision (plain_sig params).
Proof. unfold plain_sig. apply _. Defined.

(** Positional values laid over a list of slots: a slot beyond the values
    keeps its declared default. *)
Fixpoint fill (sl : list Param) (args : list value) : list (string * value) :=
  match sl with
  | [] => []
  | p :: sl' =>
      match args with
      | a :: args' => (name p, a) :: fill sl' args'
      | [] => (name p, default p) :: fill sl' []
      end
  end.

(** A full assignment of [vs] to [names] given by a call: the first [j]
    values positionally, the others by keyword. *)
Definition assignment (names : list string) (vs : list value) : dict :=
  list_to_map (zip names vs).

Definition positional_part (vs : list value) (j : nat) : list value :=
  take j vs.

Definition keyword_part (names : list string) (vs : list value) (j : nat)
  : dict :=
  list_to_map (drop j (zip names vs)).

(** The classes the walk visits: those up to and including the first one
    without collectors. *)
Fixpoint visited (mro : list signature) : list signature :=
  match mro with
  | [] => []
  | params :: mro' =>
      if has_variadic params then params :: visited mro' else [params]
  end.

(** *** The call of an initializer *)

Definition takes_positional (p : Param) : bool :=
  match pkind p with
  | POSITIONAL_ONLY | POSITIONAL_OR_KEYWORD => true
  | _ => false
  end.

Definition takes_keyword (p : Param) : bool :=
  match pkind p with
  | POSITIONAL_OR_KEYWORD | KEYWORD_ONLY => true
  | _ => false
  end.

Definition has_kind (k : kind) (params : signature) : bool :=
  existsb (λ p, bool_decide (pkind p = k)) params.

(** Whether Python can bind a call of [f] with the positional values
    [args] and the keywords [kwargs] to the parameters of [f] (the receiver
    left out): the positional values fit,
    every keyword names a parameter that is still free or goes to the
    keyword collector, and no parameter without default is left unbound. *)
Definition binds (params : signature) (args : list value) (kwargs : dict)
  : bool :=
  let positional := filter (λ p, takes_positional p = true) params in
  let given := name <$> take (length args) positional in
  (bool_decide (length args ≤ length positional)
   || has_kind VAR_POSITIONAL params)
  && forallb (λ k,
       if existsb (λ p, takes_keyword p && bool_decide (name p = k)) params
       then bool_decide (k ∉ given)
       else has_kind VAR_KEYWORD params) (elements (dom kwargs))
  && forallb (λ p,
       is_variadic p || negb (is_empty (default p))
       || bool_decide (name p ∈ given)
       || (takes_keyword p && bool_decide (name p ∈ dom kwargs))) params.

(** The call of [init] on [self], [args] and [kwargs] in the wrapper of
    the most derived class, as far as entering the initializer goes: the call binds, or
    raises [TypeError]. *)
Definition call_initializer (params : signature) (args : list value)
    (kwargs : dict) : result unit :=
  if binds params args kwargs then Ok tt else Raise TypeError.

(** The grammar of Python signatures as far as collectors go: a
    [VAR_KEYWORD] parameter can only be the last one. *)
Definition var_keyword_last (params : signature) : Prop :=
  Forall (λ p, pkind p ≠ VAR_KEYWORD) (take (length params - 1) params).

Definition no_var_positional (params : signature) : Prop :=
  Forall (λ p, pkind p ≠ VAR_POSITIONAL) params.

#[export] Instance var_keyword_last_dec params : Decision (var_keyword_last params).
Proof. unfold var_keyword_last. apply _. Defined.

#[export] Instance no_var_positional_dec params : Decision (no_var_positional params).
Proof. unfold no_var_positional. apply _. Defined.

End InstancingArgsTracker.

(** ** The [metadata] property and the objects behind it *)

Module Instance.

Abbreviation loc := nat.

(** Dictionary objects live in a heap; an instance attribute holds a
    reference to one, so two names for one dictionary see each other's
    writes. *)
Abbreviation heap := (gmap loc dict).

(** The instance: [_metadata] is unset until [__post_init__] has run. *)
Record instance := mkInstance { _metadata : option loc }.

(** [self._metadata = data], [data] being a dictionary built by the call. *)
Definition store_metadata (h : heap) (data : dict) : instance * heap :=
  let l := fresh (dom h) in
  (mkInstance (Some l), <[l := data]> h).

(** Construction as far as the recorder is concerned: the hook computes
    the dictionary and stores it on the new instance. *)
Definition construct (h : heap) (mro : list signature) (args : list value)
    (kwargs : dict) : result (instance * heap) :=
  bind (InstancingArgsTracker.post_init mro args kwargs) (λ data,
    Ok (store_metadata h data)).

(** [self.metadata]: the property getter returns [self._metadata], the
    dictionary object itself. *)
Definition metadata (self : instance) : result loc :=
  match _metadata self with
  | Some l => Ok l
  | None => Raise AttributeError
  end.

(** [self.metadata = x]: the property has no setter. *)
Definition set_metadata (self : instance) (x : loc) : result instance :=
  Raise AttributeError.

(** [d[k] = v] on the dictionary object at [l]. *)
Definition dict_setitem (h : heap) (l : loc) (k : string) (v : value)
  : result heap :=
  match h !! l with
  | Some d => Ok (<[l := <[k := v]> d]> h)
  | None => Raise AttributeError
  end.

(** [d[k]] on the dictionary object at [l]. *)
Definition dict_getitem (h : heap) (l : loc) (k : string) : result value :=
  match h !! l with
  | Some d =>
      match d !! k with
      | Some v => Ok v
      | None => Raise KeyError
      end
  | None => Raise AttributeError
  end.

(** [self.metadata[k] = v] *)
Definition metadata_setitem (h : heap) (self : instance) (k : string)
    (v : value) : result heap :=
  bind (metadata self) (λ l, dict_setitem h l k v).

(** [self.metadata[k]] *)
Definition metadata_getitem (h : heap) (self : instance) (k : string)
  : result value :=
  bind (metadata self) (λ l, dict_getitem h l k).

End Instance.

(** ** [CallPostInit]: the wrapper installed by [__init_subclass__] *)

Module CallPostInit.

Abbreviation cls := string.

(** What a construction does, in order: the body of a class's own
    [__init__] runs, a function object is called, the hook is called. *)
Inductive event :=
  | Body (c : cls) (args : list value) (kwargs : dict)
  | Called (f : string) (args : list value) (kwargs : dict)
  | PostInit (c : cls) (args : list value) (kwargs : dict).

Definition is_post_init (e : event) : bool :=
  match e with PostInit _ _ _ => true | _ => false end.

(** A class of the hierarchy.  [own_init], when the class body defines
    [__init__], gives the argument packs of the [super().__init__] calls
    the body makes, in order (none, one, or several).  [participating]
    says whether the class derives from [CallPostInit], that is whether
    [__init_subclass__] ran for it. *)
Record class_def := mkClass {
  cname : cls;
  own_init : option (list value → dict → list (list value * dict));
  participating : bool
}.

(** Calling the value [f] on [self], [args] and [kwargs]: a function
    object runs (its trace is the call), anything else is not callable. *)
Definition call_value (f : value) (args : list value) (kwargs : dict)
  : result (list event) :=
  match f with
  | PyCallable n => Ok [Called n args kwargs]
  | _ => Raise TypeError
  end.

(** The [super().__init__] calls of a body, in order. *)
Fixpoint run_calls (call : list value → dict → result (list event))
    (packs : list (list value * dict)) : result (list event) :=
  match packs with
  | [] => Ok []
  | ak :: packs' =>
      bind (call ak.1 ak.2) (λ evs,
        bind (run_calls call packs') (λ evs', Ok (evs ++ evs')))
  end.

(** [cls.__init__] applied to [self], [args] and [kwargs], [cls] being the
    first class of the linear resolution order [mro] and [ty] being
    [type(self)].  For a participating class this is [new_init], whose
    keyword-only parameter [init] defaults to [cls.__init__] as found when
    the class was defined (the class's own body, or what it inherits) and
    takes the keyword [init] of the call when there is one; [new_init] calls
    [init], then compares [type(self)] with [cls].  The empty list is
    [object]. *)
Fixpoint call_init (mro : list class_def) (ty : cls) (args : list value)
    (kwargs : dict) : result (list event) :=
  match mro with
  | [] => Ok []
  | c :: bases =>
      let original args kwargs :=
        match own_init c with
        | Some body =>
            bind (run_calls (call_init bases ty) (body args kwargs)) (λ evs,
              Ok (Body (cname c) args kwargs :: evs))
        | None => call_init bases ty args kwargs
        end in
      if participating c then
        let kwargs' := delete "init" kwargs in
        bind (match kwargs !! "init" with
              | Some init => call_value init args kwargs'
              | None => original args kwargs'
              end) (λ evs,
          Ok (evs ++ (if bool_decide (ty = cname c)
                      then [PostInit (cname c) args kwargs'] else [])))
      else original args kwargs
  end.

(** Calling the most derived class of [mro] with [args] and [kwargs]. *)
Definition construct (mro : list class_def) (args : list value)
    (kwargs : dict) : result (list event) :=
  match mro with
  | [] => Ok []
  | c :: _ => call_init mro (cname c) args kwargs
  end.

(** *** The hierarchies of the test suite *)

(** [TestInstanceArgs]: each subclass keeps its own parameters and
    forwards the other values to its base; [InstancingArgsTracker] defines
    no initializer. *)
Definition Parent_cls : class_def :=
  mkClass "Parent" (Some (λ _ _, [])) true.
Definition Child_cls : class_def :=
  mkClass "Child" (Some (λ args kwargs, [(drop 3 args, kwargs)])) true.
Definition Grandchild_cls : class_def :=
  mkClass "Grandchild" (Some (λ args kwargs, [(drop 2 args, kwargs)])) true.
Definition Tracker_cls : class_def :=
  mkClass "InstancingArgsTracker" None true.

(** [TestCallPostInit]: [Superclass] stands outside [CallPostInit] and
    defines the initializer; [Subclass] derives from both and defines none. *)
Definition Superclass : class_def :=
  mkClass "Superclass" (Some (λ _ _, [])) false.
Definition Subclass : class_def := mkClass "Subclass" None true.

End CallPostInit.

(** ** [TrackedInstances]: the registry *)

Module TrackedInstances.

Abbreviation cls := string.

(** An object: its identity and its exact class. *)
Record obj := mkObj { oid : nat; otype : cls }.

#[export] Instance obj_eq_dec : EqDecision obj.
Proof. solve_decision. Defined.

#[export] Instance obj_countable : Countable obj.
Proof.
  apply (inj_countable' (λ o, (oid o, otype o)) (λ t, mkObj t.1 t.2)).
  intros []; reflexivity.
Defined.

(** The classes' own [__dict__] entries [instances] (absent until the
    class has built an instance) and the allocation counter.  A [WeakSet]
    holds the objects that are still alive. *)
Record world := mkWorld {
  instances : gmap cls (gset obj);
  next_id : nat
}.

Definition empty_world : world := mkWorld ∅ 0.

(** [__new__(cls)] *)
Definition new (c : cls) (w : world) : obj * world :=
  let instance := mkObj (next_id w) c in
  let own :=
    match instances w !! c with
    | None => ∅
    | Some s => s
    end in
  (instance, mkWorld (<[c := own ∪ {[instance]}]> (instances w)) (S (next_id w))).

(** The object [o] becomes unreachable: every [WeakSet] drops it. *)
Definition reclaim (o : obj) (w : world) : world :=
  mkWorld ((λ s, s ∖ {[o]}) <$> instances w) (next_id w).

(** [get_instances(cls, selector)] *)
Definition get_instances (w : world) (c : cls) (selector : obj → bool)
  : result (gset obj) :=
  match instances w !! c with
  | None => Raise AttributeError
  | Some s =>
      let val := filter (λ v, selector v = true) (elements s) in
      Ok (list_to_set val)
  end.

(** A class together with its [__subclasses__()], recursively.  The tree
    describes single inheritance: a class has one place in it, and its
    resolution order is the path from it up to the root. *)
#[warnings="-register-all"]
Inductive hierarchy := Class (c : cls) (subclasses : list hierarchy).

Definition class_of (t : hierarchy) : cls :=
  match t with Class c _ => c end.

(** The attribute access [cls.instances]: the class's own entry, else the
    entry of the nearest base that has one. *)
Fixpoint getattr_instances (w : world) (mro : list cls) : result (gset obj) :=
  match mro with
  | [] => Raise AttributeError
  | c :: bases =>
      match instances w !! c with
      | Some s => Ok s
      | None => getattr_instances w bases
      end
  end.

(** The loop [for subcls in [v for v in cls.__subclasses__() if v not in
    exclude]: inst += subcls.inst_and_subcls_inst(exclude=exclude)], [call]
    being the method on a subclass. *)
Fixpoint collect_loop (call : hierarchy → result (gset obj))
    (exclude : list cls) (subs : list hierarchy) (inst : list obj)
  : result (list obj) :=
  match subs with
  | [] => Ok inst
  | subcls :: subs' =>
      if bool_decide (class_of subcls ∈ exclude)
      then collect_loop call exclude subs' inst
      else bind (call subcls) (λ r,
             collect_loop call exclude subs' (inst ++ elements r))
  end.

(** [inst_and_subcls_inst(cls, exclude)]; [bases] are the classes [cls]
    derives from, nearest first, so that [cls.instances] is looked up along
    [cls :: bases].  A class with several tracked bases, whose lookup goes
    through the resolution order of all of them, is outside this model. *)
Fixpoint inst_and_subcls_inst (w : world) (bases : list cls)
    (exclude : list cls) (t : hierarchy) : result (gset obj) :=
  match t with
  | Class c subclasses =>
      bind (getattr_instances w (c :: bases)) (λ s,
        bind (collect_loop (inst_and_subcls_inst w (c :: bases) exclude)
                exclude subclasses (elements s))
          (λ inst, Ok (list_to_set inst)))
  end.

(** *** Histories *)

(** What happens to a program's tracked objects: a class is instantiated,
    or an object is reclaimed. *)
Inductive op :=
  | New (c : cls)
  | Reclaim (o : obj).

#[export] Instance op_eq_dec : EqDecision op.
Proof. solve_decision. Defined.

Definition step (w : world) (x : op) : world :=
  match x with
  | New c => (new c w).2
  | Reclaim o => reclaim o w
  end.

Definition run (h : list op) : world := foldl step empty_world h.

(** The number of objects built by a history. *)
Definition is_new (x : op) : bool :=
  match x with New _ => true | Reclaim _ => false end.

Definition built (h : list op) : nat :=
  length (filter (λ x, is_new x = true) h).

(** [o] is a live instance of exactly [c] after [h]: some step of [h]
    built it as an instance of [c], and no later step reclaimed it. *)
Definition live (h : list op) (c : cls) (o : obj) : Prop :=
  ∃ h1 h2, h = h1 ++ New c :: h2 ∧ o = mkObj (built h1) c ∧ Reclaim o ∉ h2.

(** [c] has been instantiated in [h]. *)
Definition instantiated (h : list op) (c : cls) : Prop := New c ∈ h.

(** The class at the root of [t] and its descendants, leaving out the
    classes of [exclude] and what derives from them. *)
Fixpoint collected (exclude : list cls) (t : hierarchy) : list cls :=
  match t with
  | Class c subclasses =>
      c :: flat_map (λ subcls,
                       if bool_decide (class_of subcls ∈ exclude) then []
                       else collected exclude subcls) subclasses
  end.

(** [r] is the union the method is documented to return on [t]: the live
    instances of the collected classes. *)
Definition collects (h : list op) (exclude : list cls) (t : hierarchy)
    (r : result (gset obj)) : Prop :=
  ∃ s, r = Ok s ∧ ∀ o, o ∈ s ↔ ∃ c, c ∈ collected exclude t ∧ live h c o.

End TrackedInstances.

(** ** [EnumDict]: dictionary access to the constants of a class *)

Module EnumDict.

(** What a name of a class's own [__dict__] is bound to, as far as
    [inspect.isfunction] and [inspect.ismethod] tell it apart: a plain
    function, a bound method, a descriptor object ([classmethod],
    [staticmethod], [property]), or any other value. *)
Inductive attr :=
  | Plain (v : value)
  | Function (f : string)
  | Method (f : string)
  | Descriptor (f : string).

#[export] Instance attr_eq_dec : EqDecision attr.
Proof. solve_decision. Defined.

#[export] Instance attr_countable : Countable attr.
Proof.
  apply (inj_countable'
           (λ a, match a with
                 | Plain v => inl v
                 | Function f => inr (inl f)
                 | Method f => inr (inr (inl f))
                 | Descriptor f => inr (inr (inr f))
                 end)
           (λ c, match c with
                 | inl v => Plain v
                 | inr (inl f) => Function f
                 | inr (inr (inl f)) => Method f
                 | inr (inr (inr f)) => Descriptor f
                 end)).
  intros []; reflexivity.
Defined.

Definition isfunction (v : attr) : bool :=
  match v with Function _ => true | _ => false end.

Definition ismethod (v : attr) : bool :=
  match v with Method _ => true | _ => false end.

(** [not any([k.startswith('__'), inspect.isfunction(v),
    inspect.ismethod(v)])] *)
Definition kept (k : string) (v : attr) : bool :=
  negb (String.prefix "__" k || isfunction v || ismethod v).

(** [keys(cls)], [d] being [cls.__dict__]. *)
Definition keys (d : gmap string attr) : gset string :=
  dom (filter (λ kv, kept kv.1 kv.2 = true) d).

(** [values(cls)] *)
Definition values (d : gmap string attr) : gset attr :=
  map_img (filter (λ kv, kept kv.1 kv.2 = true) d).

(** The class [ED] of the test suite, with the entries every class body
    leaves in [__dict__]. *)
Definition ED : gmap string attr :=
  list_to_map [("__module__", Plain (PyStr "test_baseclasses"));
               ("__qualname__", Plain (PyStr "TestEnumDict.ED"));
               ("KEY1", Plain (PyStr "value1"));
               ("KEY2", Plain (PyStr "value2"));
               ("KEY3", Plain (PyStr "value3"));
               ("__doc__", Plain PyNone)].

(** [EnumDict.__dict__] itself: its three class methods are descriptor
    objects. *)
Definition EnumDict_dict : gmap string attr :=
  list_to_map [("__module__", Plain (PyStr "_baseclass"));
               ("__doc__", Plain (PyStr "The EnumDict class"));
               ("keys", Descriptor "keys");
               ("values", Descriptor "values");
               ("__setattr__", Descriptor "__setattr__")].

End EnumDict.

(** * Properties *)

(** ** The recorder *)

Module RecorderFacts.

Import InstancingArgsTracker.

(** *** [update], [fill] and the removal of the reserved keys *)

Lemma update_app (d : dict) l1 l2 :
  update d (l1 ++ l2) = update (update d l1) l2.
Proof. unfold update. apply foldl_app. Qed.

Lemma update_lookup_notin (d : dict) l k :
  k ∉ l.*1 → update d l !! k = d !! k.
Proof.
  revert d. induction l as [|[k' v] l IH]; intros d Hk; [done|].
  cbn in Hk. apply not_elem_of_cons in Hk as [Hne Hk].
  change (update (<[k' := v]> d) l !! k = d !! k).
  rewrite IH by done. by apply lookup_insert_ne.
Qed.

Lemma update_lookup_in (d : dict) l k v :
  NoDup l.*1 → (k, v) ∈ l → update d l !! k = Some v.
Proof.
  revert d. induction l as [|[k' v'] l IH]; intros d Hnd Hin.
  - by apply elem_of_nil in Hin.
  - cbn in Hnd. apply list.NoDup_cons in Hnd as [Hk' Hnd].
    change (update (<[k' := v']> d) l !! k = Some v).
    apply elem_of_cons in Hin as [Heq|Hin].
    + injection Heq as -> ->.
      rewrite update_lookup_notin by done. apply lookup_insert_eq.
    + by apply IH.
Qed.

Lemma update_nodup (d : dict) l :
  NoDup l.*1 → update d l = list_to_map l ∪ d.
Proof.
  revert d. induction l as [|[k v] l IH]; intros d Hnd.
  - cbn. by rewrite (left_id_L ∅ (∪)).
  - cbn in Hnd. apply list.NoDup_cons in Hnd as [Hk Hnd].
    change (update (<[k := v]> d) l = <[k := v]> (list_to_map l) ∪ d).
    rewrite IH by done.
    rewrite <- insert_union_l. symmetry. apply insert_union_r.
    by apply not_elem_of_list_to_map_1.
Qed.


Lemma fill_fst sl args : (fill sl args).*1 = name <$> sl.
Proof.
  revert args. induction sl as [|p sl IH]; intros args; [done|].
  destruct args; cbn; by rewrite IH.
Qed.

Lemma fill_nil sl : fill sl [] = (λ p, (name p, default p)) <$> sl.
Proof. induction sl as [|p sl IH]; [done|]. cbn. by rewrite IH. Qed.

Lemma fill_app sl1 sl2 args :
  fill (sl1 ++ sl2) args = fill sl1 args ++ fill sl2 (drop (length sl1) args).
Proof.
  revert args. induction sl1 as [|p sl1 IH]; intros args; [done|].
  destruct args as [|a args]; cbn.
  - rewrite IH. by rewrite drop_nil.
  - by rewrite IH.
Qed.

Lemma pop_reserved_lookup (d : dict) k :
  foldl pop_key d reserved !! k = if decide (k ∈ reserved) then None else d !! k.
Proof.
  unfold reserved, pop_key. cbn [foldl]. rewrite !lookup_delete.
  destruct (decide (k ∈ ["cls"; "self"; "args"; "kwargs"])) as [Hk|Hk].
  - repeat case_decide; try done. exfalso.
    repeat (apply elem_of_cons in Hk as [Hk|Hk]; [congruence|]).
    by apply elem_of_nil in Hk.
  - repeat case_decide; try done; subst; exfalso; apply Hk;
      rewrite !elem_of_cons; naive_solver.
Qed.

(** *** The loops of one visit *)

Lemma assign_required_spec arg (data : dict) args :
  assign_required arg data args
  = (update data (fill arg args), drop (length arg) args).
Proof.
  revert data args. induction arg as [|p arg IH]; intros data args; [done|].
  destruct args as [|a args]; cbn.
  - rewrite IH. by rewrite drop_nil.
  - by rewrite IH.
Qed.







Lemma post_init_inv mro args kwargs md :
  post_init mro args kwargs = Ok md →
  ∃ data rest, walk mro ∅ args = Ok (data, rest) ∧
               md = foldl pop_key (kwargs ∪ data) reserved.
Proof.
  unfold post_init. destruct (walk mro ∅ args) as [[data rest]|]; [|done].
  intros [= <-]. by exists data, rest.
Qed.

(** *** C10 and C4 *)

(** C10: whenever the recorder stores a dictionary, none of the names
    [cls], [self], [args], [kwargs] is a key of it, whatever the signatures
    declare under those names and whatever the caller passed for them; the
    removal goes by these four names only, so every other key, the name of a
    variadic collector included, keeps the binding it had before the
    removal. *)
Theorem reserved_names_removed mro args kwargs md :
  post_init mro args kwargs = Ok md →
  (∀ k, k ∈ reserved → md !! k = None) ∧
  (∀ data rest k, walk mro ∅ args = Ok (data, rest) →
     k ∉ reserved → md !! k = (kwargs ∪ data) !! k).
Proof.
  intros (data & rest & Hwalk & ->)%post_init_inv. split.
  - intros k Hk. rewrite pop_reserved_lookup. by rewrite decide_True.
  - intros data' rest' k Hwalk' Hk. rewrite Hwalk in Hwalk'.
    injection Hwalk' as <- <-.
    rewrite pop_reserved_lookup. by rewrite decide_False.
Qed.

Lemma reserved_names_removed_witness :
  let mro := [[req "args"; starstar "rest"]; []] in
  let kwargs : dict := {["rest" := PyInt 2]} in
  post_init mro [PyInt 1] kwargs = Ok {["rest" := PyInt 2]} ∧
  (∀ k, k ∈ reserved → ({["rest" := PyInt 2]} : dict) !! k = None) ∧
  (∀ data rest k, walk mro ∅ [PyInt 1] = Ok (data, rest) →
     k ∉ reserved →
     ({["rest" := PyInt 2]} : dict) !! k = (kwargs ∪ data) !! k).
Proof.
  intros mro kwargs.
  assert (post_init mro [PyInt 1] kwargs = Ok {["rest" := PyInt 2]}) as H
    by (vm_compute; reflexivity).
  split; [exact H|].
  exact (reserved_names_removed mro [PyInt 1] kwargs _ H).
Defined.




(** *** C2 *)

Lemma NoDup_names_filter (P : Param → Prop) `{∀ p, Decision (P p)} l :
  NoDup (name <$> l) → NoDup (name <$> filter P l).
Proof.
  induction l as [|p l IH]; [done|]. rewrite fmap_cons.
  intros [Hp Hnd]%list.NoDup_cons.
  rewrite filter_cons. destruct (decide (P p)); [|by apply IH].
  rewrite fmap_cons. apply list.NoDup_cons. split; [|by apply IH].
  intros (q & Hq & [_ Hin]%list_elem_of_filter)%list_elem_of_fmap.
  apply Hp. rewrite Hq. by apply list_elem_of_fmap_2.
Qed.


Lemma visit_few_args params (data : dict) args :
  length args ≤ length (arg_of params) →
  visit params data args
  = Ok (update (update data (kw_of params)) (fill (arg_of params) args), []).
Proof.
  intros Hlen. unfold visit. rewrite assign_required_spec.
  rewrite drop_ge by done. done.
Qed.

Lemma walk_prefix pre rest (data : dict) args d a :
  Forall (λ params, has_variadic params = true) pre →
  walk pre data args = Ok (d, a) →
  walk (pre ++ rest) data args = walk rest d a.
Proof.
  revert data args. induction pre as [|c pre IH]; intros data args Hvar.
  - cbn. by intros [= <- <-].
  - apply list.Forall_cons in Hvar as [Hc Hvar]. cbn [app walk].
    destruct (visit c data args) as [[d1 a1]|]; [|done]. cbn [bind].
    rewrite Hc. by apply IH.
Qed.

Lemma walk_visited mro (data : dict) args :
  walk (visited mro) data args = walk mro data args.
Proof.
  revert data args. induction mro as [|c mro IH]; intros data args; [done|].
  cbn [visited]. destruct (has_variadic c) eqn:Hc; cbn [walk].
  - destruct (visit c data args) as [[d a]|]; [|done]. cbn [bind].
    rewrite Hc. apply IH.
  - destruct (visit c data args) as [[d a]|]; [|done]. cbn [bind].
    by rewrite Hc.
Qed.





(** Three levels: the value recorded is the default of the deepest one. *)
Example deepest_default_recorded :
  post_init [[opt "x" (PyStr "child"); star "args"; starstar "kwargs"];
             [opt "x" (PyStr "mid"); star "args"; starstar "kwargs"];
             [opt "x" (PyStr "deep")];
             Tracker_sig; object_sig; object_sig; object_sig] [] ∅
  = Ok {["x" := PyStr "deep"]}.
Proof. vm_compute. reflexivity. Qed.

(** *** C5 *)

Lemma override_defaults_raise params idx n (data : dict) args e :
  override_defaults params idx n data args = Raise e → e = IndexError.
Proof.
  revert idx data args. induction n as [|n IH]; intros idx data args; cbn; [done|].
  destruct (params !! idx) as [p|]; [|congruence].
  destruct (is_variadic p); [done|].
  destruct args as [|a args]; [congruence|]. apply IH.
Qed.

Lemma walk_raise mro (data : dict) args e :
  walk mro data args = Raise e → e = IndexError.
Proof.
  revert data args. induction mro as [|params mro IH]; intros data args; [done|].
  cbn [walk]. destruct (visit params data args) as [[d1 a1]|e'] eqn:Hvisit.
  - cbn [bind]. destruct (has_variadic params); [apply IH|done].
  - cbn [bind]. intros [= <-]. unfold visit in Hvisit.
    rewrite assign_required_spec in Hvisit.
    by eapply override_defaults_raise.
Qed.

(** What a successful run of the third loop has done: it popped [k]
    values, for [k] consecutive non-variadic parameters from [idx] on, and
    stopped either for want of values or in front of a collector. *)
Lemma override_defaults_run params idx (data : dict) args data' rest :
  override_defaults params idx (length args) data args = Ok (data', rest) →
  ∃ k, length args = k + length rest ∧
       (∀ i, idx ≤ i < idx + k →
             ∃ p, params !! i = Some p ∧ is_variadic p = false) ∧
       (rest = [] ∨ ∃ p, params !! (idx + k) = Some p ∧ is_variadic p = true).
Proof.
  revert idx data. induction args as [|a args IH]; intros idx data; cbn.
  - intros [= <- <-]. exists 0. split; [done|]. split; [lia|by left].
  - destruct (params !! idx) as [p|] eqn:Hp; [|done].
    destruct (is_variadic p) eqn:Hv.
    + intros [= <- <-]. exists 0. split; [done|]. split; [lia|].
      right. exists p. by rewrite Nat.add_0_r.
    + intros (k & Hlen & Hpop & Hstop)%IH. exists (S k).
      split; [cbn; lia|]. split.
      * intros i Hi. destruct (decide (i = idx)) as [->|Hne]; [by exists p|].
        apply Hpop. lia.
      * by rewrite <- Nat.add_succ_comm.
Qed.

Lemma variadic_has_variadic params i p :
  params !! i = Some p → is_variadic p = true → has_variadic params = true.
Proof.
  intros Hp Hv. apply existsb_exists. exists p. split; [|done].
  apply list_elem_of_In. by eapply list_elem_of_lookup_2.
Qed.

(** A signature without [VAR_POSITIONAL] whose [VAR_KEYWORD] can only come
    last: every parameter but possibly the last is a slot. *)
Lemma collector_last params i p :
  no_var_positional params → var_keyword_last params →
  params !! i = Some p → is_variadic p = false →
  i < length (slots_of params).
Proof.
  unfold no_var_positional, var_keyword_last, slots_of.
  destruct params as [|q init _] using rev_ind; [done|].
  rewrite length_app, Nat.add_sub. cbn [length].
  rewrite take_app_length, list.filter_app.
  intros [Hnp _]%list.Forall_app Hnk Hp Hv.
  assert (filter (λ p, is_variadic p = false) init = init) as ->.
  { clear Hp. induction init as [|x init IH]; [done|].
    apply list.Forall_cons in Hnp as [Hx Hnp]. apply list.Forall_cons in Hnk as [Hx' Hnk].
    rewrite filter_cons_True; [by rewrite IH|].
    unfold is_variadic. by destruct (pkind x). }
  rewrite length_app.
  destruct (decide (i < length init)) as [|Hge]; [lia|].
  rewrite lookup_app_r in Hp by lia.
  destruct (i - length init) as [|j] eqn:Hj; [|done].
  cbn in Hp. injection Hp as ->.
  rewrite filter_cons_True by done. cbn. lia.
Qed.

Lemma arg_of_length params : length (arg_of params) ≤ length (slots_of params).
Proof.
  unfold arg_of, slots_of. induction params as [|p params IH]; [done|].
  rewrite !filter_cons.
  destruct (decide (is_empty (default p) = true ∧ is_variadic p = false)) as [[_ Hv]|Hn].
  - rewrite decide_True by done. cbn. lia.
  - destruct (decide (is_variadic p = false)); cbn; lia.
Qed.

Lemma visit_consumes params (data : dict) args data' rest :
  no_var_positional params → var_keyword_last params →
  visit params data args = Ok (data', rest) →
  length args ≤ length (slots_of params) + length rest ∧
  (has_variadic params = false → rest = []).
Proof.
  intros Hnp Hnk. unfold visit. rewrite assign_required_spec.
  intros (k & Hlen & Hpop & Hstop)%override_defaults_run.
  rewrite length_drop in Hlen. pose proof (arg_of_length params) as Hr. split.
  - destruct k as [|k]; [lia|].
    destruct (Hpop (length (arg_of params) + k)) as (p & Hp & Hv); [lia|].
    pose proof (collector_last _ _ _ Hnp Hnk Hp Hv). lia.
  - intros Hnv. destruct Hstop as [|(p & Hp & Hv)]; [done|].
    rewrite (variadic_has_variadic _ _ _ Hp Hv) in Hnv. done.
Qed.

Lemma slots_cons params mro : slots (params :: mro) = slots_of params ++ slots mro.
Proof. done. Qed.

Lemma walk_consumes mro (data : dict) args data' rest :
  Forall no_var_positional mro → Forall var_keyword_last mro →
  walk mro data args = Ok (data', rest) →
  length args ≤ length (slots mro) + length rest ∧
  (Exists (λ params, has_variadic params = false) mro → rest = []).
Proof.
  revert data args. induction mro as [|params mro IH]; intros data args Hnp Hnk.
  - cbn. intros [= <- <-]. split; [lia|]. by intros ?%List.Exists_nil.
  - apply list.Forall_cons in Hnp as [Hnp Hnps]. apply list.Forall_cons in Hnk as [Hnk Hnks].
    cbn [walk]. destruct (visit params data args) as [[d1 a1]|] eqn:Hvisit; [|done].
    cbn [bind]. rewrite slots_cons, length_app.
    destruct (visit_consumes _ _ _ _ _ Hnp Hnk Hvisit) as [Hlen Hstop].
    destruct (has_variadic params) eqn:Hv.
    + intros [Hlen' Hstop']%IH; [|done..]. split; [lia|].
      intros [Hhd|Htl]%List.Exists_cons; [congruence|by apply Hstop'].
    + intros [= <- <-]. rewrite (Hstop eq_refl) in *. cbn in *. split; [lia|done].
Qed.

Lemma visited_stops mro :
  Exists (λ params, has_variadic params = false) mro →
  Exists (λ params, has_variadic params = false) (visited mro).
Proof.
  induction mro as [|c mro IH]; [by intros ?%List.Exists_nil|].
  cbn [visited]. destruct (has_variadic c) eqn:Hc.
  - intros [?|?]%List.Exists_cons; [congruence|].
    apply List.Exists_cons. right. by apply IH.
  - intros _. apply List.Exists_cons. by left.
Qed.

Lemma visited_head c bases :
  ∃ tail, visited (c :: bases) = c :: tail.
Proof. cbn. destruct (has_variadic c); by eexists. Qed.

Lemma positional_are_slots params :
  length (filter (λ p, takes_positional p = true) params)
  ≤ length (slots_of params).
Proof.
  unfold slots_of. induction params as [|p params IH]; [done|].
  rewrite !filter_cons.
  destruct (decide (takes_positional p = true)) as [Hp|Hp].
  - rewrite decide_True; [cbn; lia|].
    unfold takes_positional in Hp. unfold is_variadic.
    by destruct (pkind p).
  - destruct (decide (is_variadic p = false)); cbn; lia.
Qed.

Lemma no_var_positional_kind params :
  no_var_positional params → has_kind VAR_POSITIONAL params = false.
Proof.
  unfold no_var_positional, has_kind.
  induction 1 as [|p params Hp _ IH]; [done|]. cbn.
  by rewrite IH, bool_decide_eq_false_2.
Qed.

(** More positional values than slots, and no parameter to collect them:
    Python refuses the call. *)
Lemma binds_too_many params args kwargs :
  no_var_positional params →
  length (slots_of params) < length args →
  binds params args kwargs = false.
Proof.
  intros Hnp Hlen. unfold binds.
  rewrite no_var_positional_kind by done.
  rewrite bool_decide_eq_false_2; [done|].
  pose proof (positional_are_slots params). lia.
Qed.

(** C5 (amended): nothing is dropped silently.  When none of the classes
    the walk visits (those up to and including the first one without
    collectors; every resolution order has one, since it ends in [object])
    declares a variadic-positional parameter ([VAR_KEYWORD] being last, as
    Python's grammar has it), a call with more positional values than these
    classes have non-variadic slots does not complete: the call of the most
    derived initializer raises [TypeError], and the recorder, given these
    arguments, raises [IndexError]; no dictionary is stored. *)
Theorem excess_positional_raises c bases args kwargs :
  Forall no_var_positional (visited (c :: bases)) →
  Forall var_keyword_last (visited (c :: bases)) →
  Exists (λ params, has_variadic params = false) (c :: bases) →
  length (slots (visited (c :: bases))) < length args →
  call_initializer c args kwargs = Raise TypeError ∧
  post_init (c :: bases) args kwargs = Raise IndexError.
Proof.
  intros Hnp Hnk Hex Hlen. split.
  - destruct (visited_head c bases) as [tail Htail]. rewrite Htail in *.
    apply list.Forall_cons in Hnp as [Hc _].
    rewrite slots_cons, length_app in Hlen.
    unfold call_initializer. rewrite binds_too_many; [done|done|lia].
  - unfold post_init. rewrite <- walk_visited.
    destruct (walk (visited (c :: bases)) ∅ args) as [[data rest]|e] eqn:Hwalk.
    + destruct (walk_consumes _ _ _ _ _ Hnp Hnk Hwalk) as [Hle Hrest].
      rewrite (Hrest (visited_stops _ Hex)) in Hle. cbn [length] in Hle. lia.
    + cbn. by rewrite (walk_raise _ _ _ _ Hwalk).
Qed.

Lemma excess_positional_raises_witness :
  let mid := [req "m"; starstar "kwargs"] in
  let args := [PyInt 1; PyInt 2; PyInt 3; PyInt 4; PyInt 5] in
  call_initializer mid args ∅ = Raise TypeError ∧
  post_init (mid :: mro_Parent) args ∅ = Raise IndexError.
Proof.
  intros mid args. apply excess_positional_raises.
  - by apply (bool_decide_unpack _).
  - by apply (bool_decide_unpack _).
  - apply List.Exists_cons. right. apply List.Exists_cons. by left.
  - vm_compute. lia.
Defined.

(** C5 as written fails: [Parent] of the test suite declares three slots
    and no collector, and the walk stops there; a fourth positional value
    is not dropped: the call of the initializer raises, and so does the
    recorder when it is given the four values. *)
Lemma excess_positional_not_dropped :
  let args := [PyStr "a"; PyStr "b"; PyStr "c"; PyStr "d"] in
  visited mro_Parent = [Parent] ∧
  Forall no_var_positional (visited mro_Parent) ∧
  length (slots (visited mro_Parent)) < length args ∧
  call_initializer Parent args ∅ = Raise TypeError ∧
  post_init mro_Parent args ∅ = Raise IndexError.
Proof.
  intros args. split; [reflexivity|].
  split; [by apply (bool_decide_unpack _)|].
  split; [vm_compute; lia|]. split; vm_compute; reflexivity.
Qed.

(** Python's binding on the calls of the test suite. *)
Example binds_test_calls :
  binds Parent [PyStr "argp1"] (list_to_map [("p2", PyStr "argp2");
                                             ("p3", PyStr "argp3")]) = true ∧
  binds Parent [PyStr "argp1"] ∅ = false ∧
  binds Parent [PyStr "argp1"; PyStr "argp2"] {["p1" := PyNone]} = false ∧
  binds Parent [PyStr "argp1"; PyStr "argp2"] {["q" := PyNone]} = false ∧
  binds Child [PyInt 1; PyInt 2; PyInt 3; PyInt 4; PyInt 5; PyInt 6]
    {["q" := PyNone]} = true.
Proof. repeat split; vm_compute; reflexivity. Qed.

(** The same in a construction that Python itself accepts: the subclass
    takes any number of positional values and hands two of them to its
    base; the recorder walks on to the base with three values left for its
    two slots. *)
Example excess_after_forwarding_raises :
  post_init [[req "c1"; star "args"; starstar "kwargs"];
             [req "p1"; opt "p2" PyNone];
             Tracker_sig; object_sig; object_sig; object_sig]
    [PyInt 1; PyInt 2; PyInt 3; PyInt 4] ∅ = Raise IndexError.
Proof. vm_compute. reflexivity. Qed.

(** *** C3 *)

Section layout.

(** A signature laid out as required parameters [A], defaulted
    parameters [D] and collectors [V]. *)
Variables A D V : list Param.
Hypothesis HA : Forall (λ p, is_empty (default p) = true ∧ is_variadic p = false) A.
Hypothesis HD : Forall (λ p, is_empty (default p) = false ∧ is_variadic p = false) D.
Hypothesis HV : Forall (λ p, is_variadic p = true) V.

Lemma filter_all (P : Param → Prop) `{∀ p, Decision (P p)} l :
  Forall P l → filter P l = l.
Proof.
  induction 1 as [|x l Hx _ IH]; [done|].
  by rewrite filter_cons_True, IH.
Qed.

Lemma filter_none (P : Param → Prop) `{∀ p, Decision (P p)} l :
  Forall (λ p, ¬ P p) l → filter P l = [].
Proof.
  induction 1 as [|x l Hx _ IH]; [done|].
  by rewrite filter_cons_False.
Qed.

Lemma layout_arg_of : arg_of (A ++ D ++ V) = A.
Proof.
  unfold arg_of. rewrite !list.filter_app.
  rewrite (filter_all _ A) by done.
  rewrite (filter_none _ D), (filter_none _ V), !app_nil_r; [done|..].
  - eapply list.Forall_impl; [exact HV|]. intros p Hp [_ Hq]. congruence.
  - eapply list.Forall_impl; [exact HD|]. intros p [Hp _] [Hq _]. congruence.
Qed.

Lemma layout_dfl_of : dfl_of (A ++ D ++ V) = D.
Proof.
  unfold dfl_of. rewrite !list.filter_app.
  rewrite (filter_all _ D) by done.
  rewrite (filter_none _ A), (filter_none _ V), app_nil_r; [done|..].
  - eapply list.Forall_impl; [exact HV|]. intros p Hp [_ Hq]. congruence.
  - eapply list.Forall_impl; [exact HA|]. intros p [Hp _] [Hq _]. congruence.
Qed.

Lemma layout_slots_of : slots_of (A ++ D ++ V) = A ++ D.
Proof.
  unfold slots_of. rewrite !list.filter_app.
  rewrite (filter_all _ A), (filter_all _ D), (filter_none _ V), app_nil_r; [done|..].
  - eapply list.Forall_impl; [exact HV|]. intros p Hp Hq. congruence.
  - eapply list.Forall_impl; [exact HD|]. by intros p [_ Hp].
  - eapply list.Forall_impl; [exact HA|]. by intros p [_ Hp].
Qed.

Lemma layout_has_variadic :
  has_variadic (A ++ D ++ V) = match V with [] => false | _ => true end.
Proof.
  unfold has_variadic. rewrite !existsb_app.
  assert (∀ l, Forall (λ p, is_variadic p = false) l → existsb is_variadic l = false) as Hno.
  { induction 1 as [|x l Hx _ IH]; [done|]. cbn. by rewrite Hx, IH. }
  rewrite (Hno A), (Hno D); cbn.
  - destruct HV as [|q V' Hq _]; [done|]. cbn. by rewrite Hq.
  - eapply list.Forall_impl; [exact HD|]. by intros p [_ Hp].
  - eapply list.Forall_impl; [exact HA|]. by intros p [_ Hp].
Qed.

(** The third loop on such a signature: the values go to the defaulted
    parameters in order and the loop stops in front of the collectors;
    without collectors there must not be more values than parameters. *)
Lemma override_defaults_layout (data : dict) args :
  (V = [] → length args ≤ length D) →
  override_defaults (A ++ D ++ V) (length A) (length args) data args
  = Ok (update data (zip (name <$> D) args), drop (length D) args).
Proof.
  clear HA. revert A data args.
  induction D as [|p D' IH]; intros A' data args Hfit.
  - destruct args as [|a args]; [done|]. cbn [length override_defaults].
    rewrite lookup_app_r, Nat.sub_diag by done.
    destruct HV as [|q V' Hq _]; [cbn in Hfit; specialize (Hfit eq_refl); lia|].
    cbn. by rewrite Hq.
  - apply list.Forall_cons in HD as [[_ Hp] HD'].
    destruct args as [|a args]; [done|]. cbn [length override_defaults].
    rewrite <- app_comm_cons.
    rewrite list_lookup_middle by done. rewrite Hp.
    replace (A' ++ p :: D' ++ V) with ((A' ++ [p]) ++ D' ++ V)
      by (by rewrite <- app_assoc).
    replace (S (length A')) with (length (A' ++ [p]))
      by (rewrite length_app; cbn; lia).
    rewrite IH; [done|done|]. intros HVnil. specialize (Hfit HVnil).
    cbn in Hfit. lia.
Qed.

End layout.

Lemma plain_sig_layout params :
  plain_sig params →
  ∃ A D V,
    params = A ++ D ++ V ∧
    Forall (λ p, is_empty (default p) = true ∧ is_variadic p = false) A ∧
    Forall (λ p, is_empty (default p) = false ∧ is_variadic p = false) D ∧
    Forall (λ p, is_variadic p = true) V.
Proof.
  intros Hplain. eexists _, _, _. split; [exact Hplain|].
  unfold arg_of, dfl_of. repeat split; apply Forall_forall; intros p Hp;
    apply list_elem_of_In, list_elem_of_filter in Hp as [Hp _]; tauto.
Qed.

Lemma zip_fst_take {X Y} (l : list X) (k : list Y) :
  (zip l k).*1 = take (length k) l.
Proof.
  revert k. induction l as [|x l IH]; intros [|y k]; cbn; try done.
  by rewrite IH.
Qed.

Lemma NoDup_take {X} (l : list X) n : NoDup l → NoDup (take n l).
Proof. intros Hnd. eapply sublist_NoDup; [done|apply sublist_take]. Qed.

Lemma NoDup_drop {X} (l : list X) n : NoDup l → NoDup (drop n l).
Proof. intros Hnd. eapply sublist_NoDup; [done|apply sublist_drop]. Qed.

Lemma list_to_map_disjoint (l1 l2 : list (string * value)) :
  (∀ k, k ∈ l1.*1 → k ∉ l2.*1) →
  (list_to_map l1 : dict) ##ₘ list_to_map l2.
Proof.
  intros Hdisj. apply map_disjoint_spec. intros k x y Hx Hy.
  apply elem_of_list_to_map_2 in Hx, Hy.
  apply (Hdisj k).
  - apply list_elem_of_fmap. by exists (k, x).
  - apply list_elem_of_fmap. by exists (k, y).
Qed.

(** Positional values over seeded defaults are [fill]. *)
Lemma fill_defaulted sl args :
  NoDup (name <$> sl) →
  (list_to_map (zip (name <$> sl) args) : dict)
    ∪ list_to_map ((λ p, (name p, default p)) <$> sl)
  = list_to_map (fill sl args).
Proof.
  revert args. induction sl as [|p sl IH]; intros args Hnd.
  - cbn. by rewrite (left_id_L ∅ (∪)).
  - rewrite fmap_cons in Hnd. apply list.NoDup_cons in Hnd as [Hp Hnd].
    destruct args as [|a args].
    + cbn [fill]. rewrite fill_nil. cbn. by rewrite (left_id_L ∅ (∪)).
    + cbn [fill fmap list_fmap zip zip_with list_to_map foldr uncurry].
      rewrite <- IH by done.
      rewrite <- insert_union_l. rewrite <- insert_union_r.
      * by rewrite insert_insert_eq.
      * apply not_elem_of_list_to_map_1. rewrite zip_fst_take.
        intros Hin. apply Hp. by eapply subseteq_take.
Qed.

Lemma visit_layout A D V (data : dict) args :
  Forall (λ p, is_empty (default p) = true ∧ is_variadic p = false) A →
  Forall (λ p, is_empty (default p) = false ∧ is_variadic p = false) D →
  Forall (λ p, is_variadic p = true) V →
  NoDup (name <$> A ++ D) →
  (V = [] → length args ≤ length (A ++ D)) →
  visit (A ++ D ++ V) data args
  = Ok (list_to_map (fill (A ++ D) args) ∪ data, drop (length (A ++ D)) args).
Proof.
  intros HA HD HV Hnd Hfit. unfold visit, kw_of.
  rewrite layout_arg_of, layout_dfl_of by done.
  rewrite assign_required_spec.
  rewrite override_defaults_layout; [|done..|].
  2:{ intros HVnil. specialize (Hfit HVnil).
      rewrite length_drop. rewrite length_app in Hfit. lia. }
  rewrite drop_drop, length_app. f_equal. f_equal.
  rewrite fmap_app in Hnd.
  apply list.NoDup_app in Hnd as (HndA & Hdisj & HndD).
  rewrite !update_nodup.
  - rewrite fill_app, list_to_map_app.
    rewrite <- (fill_defaulted D) by done.
    rewrite !(assoc_L (∪)).
    rewrite (map_union_comm (list_to_map (zip _ _)) (list_to_map (fill A args)));
      [done|].
    apply list_to_map_disjoint. intros k. rewrite fill_fst, zip_fst_take.
    intros Hk' Hk. apply (Hdisj k Hk). by eapply subseteq_take.
  - rewrite <- list_fmap_compose. exact HndD.
  - by rewrite fill_fst.
  - rewrite zip_fst_take. by apply NoDup_take.
Qed.

Lemma visit_plain params (data : dict) args :
  plain_sig params →
  NoDup (name <$> slots_of params) →
  (has_variadic params = false → length args ≤ length (slots_of params)) →
  visit params data args
  = Ok (list_to_map (fill (slots_of params) args) ∪ data,
        drop (length (slots_of params)) args).
Proof.
  intros (A & D & V & -> & HA & HD & HV)%plain_sig_layout.
  rewrite layout_slots_of, layout_has_variadic by done.
  intros Hnd Hfit. apply visit_layout; try done.
  intros ->. by apply Hfit.
Qed.

(** The walk over plain signatures: every class up to the first one
    without collectors is visited, and the positional values are laid over
    the slots of these classes in order. *)
Lemma walk_plain pre last bases (data : dict) args :
  Forall plain_sig (pre ++ [last]) →
  Forall (λ params, has_variadic params = true) pre →
  has_variadic last = false →
  NoDup (slot_names (pre ++ [last])) →
  length args ≤ length (slots (pre ++ [last])) →
  walk (pre ++ last :: bases) data args
  = Ok (list_to_map (fill (slots (pre ++ [last])) args) ∪ data, []).
Proof.
  revert data args. induction pre as [|c pre IH]; intros data args Hplain Hvar Hlast Hnd Hlen.
  - cbn [app walk] in *. apply list.Forall_cons in Hplain as [Hplain _].
    unfold slot_names in Hnd. rewrite slots_cons in Hnd, Hlen |- *.
    change (slots []) with (@nil Param) in *. rewrite app_nil_r in *.
    rewrite visit_plain by done. cbn [bind]. rewrite Hlast.
    by rewrite drop_ge.
  - cbn [app walk] in Hplain, Hnd, Hlen |- *.
    apply list.Forall_cons in Hplain as [Hc Hplain].
    apply list.Forall_cons in Hvar as [Hcv Hvar].
    unfold slot_names in Hnd, IH. rewrite slots_cons in Hnd, Hlen |- *.
    rewrite fmap_app in Hnd. apply list.NoDup_app in Hnd as (Hndc & Hdisj & Hnd).
    rewrite visit_plain; [|done|done|by rewrite Hcv].
    cbn [bind]. rewrite Hcv. rewrite IH; [|done..|].
    2:{ rewrite length_drop. rewrite length_app in Hlen. lia. }
    f_equal. f_equal. rewrite fill_app, list_to_map_app.
    rewrite !(assoc_L (∪)). f_equal.
    apply map_union_comm, list_to_map_disjoint.
    intros k. rewrite !fill_fst. intros Hk' Hk. by apply (Hdisj k).
Qed.

Lemma fill_take sl vs j :
  length vs = length sl → j ≤ length vs →
  fill sl (take j vs)
  = take j (zip (name <$> sl) vs) ++ ((λ p, (name p, default p)) <$> drop j sl).
Proof.
  revert vs j. induction sl as [|p sl IH]; intros [|v vs] j Hlen Hj; try done.
  - cbn in Hj. assert (j = 0) as -> by lia. done.
  - destruct j as [|j]; cbn.
    + by rewrite fill_nil.
    + rewrite IH; [done|..]; cbn in *; lia.
Qed.

(** Where the three styles of call do agree: for a hierarchy whose visited
    classes (those up to and including the first one without collectors)
    have plain signatures, with pairwise distinct parameter names none of
    which is reserved, and for every assignment of one value to each
    parameter name, the call that passes the first [j] values positionally
    and the others by keyword records that assignment, for every [j]. *)
Lemma positional_keyword_mixed_agree pre last bases vs j :
  let names := slot_names (pre ++ [last]) in
  Forall plain_sig (pre ++ [last]) →
  Forall (λ params, has_variadic params = true) pre →
  has_variadic last = false →
  NoDup names →
  Forall (λ k, k ∉ reserved) names →
  length vs = length names →
  j ≤ length vs →
  post_init (pre ++ last :: bases)
    (positional_part vs j) (keyword_part names vs j)
  = Ok (assignment names vs).
Proof.
  intros names Hplain Hvar Hlast Hnd Hres Hlen Hj.
  unfold post_init, positional_part, keyword_part, assignment.
  assert (length vs = length (slots (pre ++ [last]))) as Hlen'
    by (rewrite Hlen; apply length_fmap).
  rewrite walk_plain; [|done..|rewrite length_take; lia].
  cbn [bind]. f_equal. rewrite (right_id_L ∅ (∪)).
  rewrite fill_take by done. fold (slot_names (pre ++ [last])). fold names.
  set (Z := zip names vs).
  assert (Z.*1 = names) as HZ by (apply fst_zip; lia).
  apply map_eq. intros k. rewrite pop_reserved_lookup.
  destruct (decide (k ∈ reserved)) as [Hk|Hk].
  - symmetry. apply not_elem_of_list_to_map_1. rewrite HZ. intros Hin.
    by apply (proj1 (Forall_forall _ _) Hres k); [apply list_elem_of_In|].
  - rewrite <- (firstn_skipn j Z) at 3.
    rewrite !list_to_map_app, !lookup_union.
    set (Dfl := (λ p, (name p, default p)) <$> drop j (slots (pre ++ [last]))).
    destruct (list_to_map (drop j Z) !! k) as [x|] eqn:Hx;
      destruct (list_to_map (take j Z) !! k) as [y|] eqn:Hy;
      destruct (list_to_map Dfl !! k) as [z|] eqn:Hz; cbn; try done.
    + exfalso. apply elem_of_list_to_map_2 in Hx, Hy.
      rewrite <- HZ, <- (firstn_skipn j Z), fmap_app in Hnd.
      apply list.NoDup_app in Hnd as (_ & Hdisj & _).
      apply (Hdisj k); apply list_elem_of_fmap; [by exists (k, y)|by exists (k, x)].
    + exfalso. apply elem_of_list_to_map_2 in Hx, Hy.
      rewrite <- HZ, <- (firstn_skipn j Z), fmap_app in Hnd.
      apply list.NoDup_app in Hnd as (_ & Hdisj & _).
      apply (Hdisj k); apply list_elem_of_fmap; [by exists (k, y)|by exists (k, x)].
    + exfalso. apply elem_of_list_to_map_2 in Hz.
      apply not_elem_of_list_to_map_2 in Hx. apply Hx.
      rewrite fmap_drop, HZ. unfold names, slot_names. rewrite <- fmap_drop.
      apply list_elem_of_fmap in Hz as (q & [= -> _] & Hq).
      by apply list_elem_of_fmap_2.
Qed.

Lemma positional_keyword_mixed_agree_witness :
  let vs := [PyStr "arggc1"; PyStr "arggc2"; PyStr "argc1"; PyStr "argc2";
             PyStr "argc3"; PyStr "argp1"; PyStr "argp2"; PyStr "argp3"] in
  let names := slot_names ([Grandchild; Child] ++ [Parent]) in
  post_init ([Grandchild; Child] ++ Parent ::
             [Tracker_sig; object_sig; object_sig; object_sig])
    (positional_part vs 4) (keyword_part names vs 4)
  = Ok (assignment names vs).
Proof.
  intros vs names.
  apply (positional_keyword_mixed_agree [Grandchild; Child] Parent
           [Tracker_sig; object_sig; object_sig; object_sig] vs 4).
  - by apply (bool_decide_unpack _).
  - by apply (bool_decide_unpack _).
  - reflexivity.
  - by apply (bool_decide_unpack _).
  - by apply (bool_decide_unpack _).
  - reflexivity.
  - vm_compute. lia.
Defined.

(** C3: the code departs from the claim on a signature with a required
    keyword-only parameter after the collector.  The recorder takes every
    parameter without default for a positional one: in the mixed call the
    second positional value, which Python binds to [b], is recorded under
    [c] and then replaced by the keyword, so that [b] is recorded with its
    default, whereas the all-keyword call with the same values records the
    value of [b].  Both calls are accepted by the initializer. *)
Theorem mixed_and_keyword_calls_differ :
  let sig :=
    [req "a"; opt "b" (PyInt 0); star "args"; kwonly "c"; starstar "kwargs"] in
  let mro := [sig; Tracker_sig; object_sig; object_sig; object_sig] in
  let keywords : dict :=
    list_to_map [("a", PyInt 1); ("b", PyInt 2); ("c", PyInt 3)] in
  call_initializer sig [PyInt 1; PyInt 2] {["c" := PyInt 3]} = Ok tt ∧
  call_initializer sig [] keywords = Ok tt ∧
  post_init mro [PyInt 1; PyInt 2] {["c" := PyInt 3]}
  = Ok (list_to_map [("a", PyInt 1); ("b", PyInt 0); ("c", PyInt 3)]) ∧
  post_init mro [] keywords
  = Ok (list_to_map [("a", PyInt 1); ("b", PyInt 2); ("c", PyInt 3)]) ∧
  post_init mro [PyInt 1; PyInt 2] {["c" := PyInt 3]}
  ≠ post_init mro [] keywords.
Proof.
  intros sig mro keywords.
  assert (post_init mro [PyInt 1; PyInt 2] {["c" := PyInt 3]}
          = Ok (list_to_map [("a", PyInt 1); ("b", PyInt 0); ("c", PyInt 3)])) as H1
    by (vm_compute; reflexivity).
  assert (post_init mro [] keywords
          = Ok (list_to_map [("a", PyInt 1); ("b", PyInt 2); ("c", PyInt 3)])) as H2
    by (vm_compute; reflexivity).
  split; [by vm_compute|]. split; [by vm_compute|].
  split; [exact H1|]. split; [exact H2|].
  rewrite H1, H2. intros Heq. vm_compute in Heq. discriminate Heq.
Qed.

(** The styles of call also differ, with ordinary parameters only, on a
    name declared at two levels.  The positional value bound by the subclass is
    replaced by the base's default; the keyword survives. *)
Example positional_and_keyword_calls_differ :
  let mro := [[req "x"; star "args"; starstar "kwargs"];
              [opt "x" (PyStr "parent")];
              Tracker_sig; object_sig; object_sig; object_sig] in
  post_init mro [PyStr "v"] ∅ = Ok {["x" := PyStr "parent"]} ∧
  post_init mro [] {["x" := PyStr "v"]} = Ok {["x" := PyStr "v"]}.
Proof. split; vm_compute; reflexivity. Qed.

(** *** C9 *)

Lemma elem_of_concat {A} (x : A) (ls : list (list A)) :
  x ∈ concat ls ↔ ∃ l, l ∈ ls ∧ x ∈ l.
Proof.
  induction ls as [|l ls IH]; cbn.
  - split; [by intros ?%elem_of_nil|]. by intros (l & ?%elem_of_nil & _).
  - rewrite elem_of_app, IH. split.
    + intros [Hx|(l' & Hl' & Hx)].
      * exists l. split; [apply elem_of_cons; by left|done].
      * exists l'. split; [apply elem_of_cons; by right|done].
    + intros (l' & [->|Hl']%elem_of_cons & Hx); [by left|].
      right. by exists l'.
Qed.

Lemma mro_parameter_list_all sigs :
  mro_parameter_list (Some <$> sigs) = Ok (concat sigs).
Proof.
  induction sigs as [|params sigs IH]; [done|].
  cbn. change (list_fmap _ _ Some sigs) with (Some <$> sigs).
  by rewrite IH.
Qed.

Lemma mro_parameter_list_none mro :
  None ∈ mro → mro_parameter_list mro = Raise ValueError.
Proof.
  induction mro as [|base mro IH]; [by intros ?%elem_of_nil|].
  intros [<-|Hin]%elem_of_cons; [done|].
  cbn. destruct base as [params|]; [|done]. cbn. by rewrite IH.
Qed.

Lemma get_mro_parameters_ok sigs :
  forallb hashable_param
    (filter (λ v, is_variadic v = false) (concat sigs)) = true →
  get_mro_parameters (Some <$> sigs)
  = Ok (list_to_set (filter (λ v, is_variadic v = false) (concat sigs))).
Proof.
  intros Hhash. unfold get_mro_parameters.
  rewrite mro_parameter_list_all. cbn [bind]. by rewrite Hhash.
Qed.

(** C9 (amended): on a class all of whose bases have a signature and whose
    non-variadic parameters are hashable, [get_mro_parameters] returns the
    set of the non-variadic parameters declared by the classes of the
    resolution order; on a class with a base that has no signature it raises
    [ValueError].  On [Parent] of the test suite the result holds the 3
    parameters [p1], [p2] and defaulted [p3], on the three-level
    [Grandchild] the 8 parameters of the three levels. *)
Theorem mro_parameters_union :
  (∀ sigs,
     Forall (λ p, hashable_param p = true)
       (filter (λ v, is_variadic v = false) (concat sigs)) →
     ∃ s, get_mro_parameters (Some <$> sigs) = Ok s ∧
          ∀ p, p ∈ s ↔
               ∃ params, params ∈ sigs ∧ p ∈ params ∧ is_variadic p = false) ∧
  (∀ mro, None ∈ mro → get_mro_parameters mro = Raise ValueError) ∧
  (get_mro_parameters (Some <$> mro_Parent)
     = Ok {[req "p1"; req "p2"; opt "p3" (PyStr "vp3")]} ∧
   size ({[req "p1"; req "p2"; opt "p3" (PyStr "vp3")]} : gset Param) = 3) ∧
  (∃ s, get_mro_parameters (Some <$> mro_Grandchild) = Ok s ∧
        size s = 8 ∧
        (set_map name s : gset string)
        = {["gc1"; "gc2"; "c1"; "c2"; "c3"; "p1"; "p2"; "p3"]}).
Proof.
  split; [|split; [|split]].
  - intros sigs Hhash.
    rewrite get_mro_parameters_ok.
    2:{ apply forallb_forall. intros p Hp.
        by apply (proj1 (Forall_forall _ _) Hhash p). }
    eexists. split; [reflexivity|]. intros p.
    rewrite elem_of_list_to_set, list_elem_of_filter, elem_of_concat.
    split.
    + intros (Hv & params & Hin & Hp). by exists params.
    + intros (params & Hin & Hp & Hv). split; [done|]. by exists params.
  - intros mro Hnone. unfold get_mro_parameters.
    by rewrite mro_parameter_list_none.
  - split; [|by vm_compute].
    rewrite get_mro_parameters_ok by (by vm_compute). f_equal.
  - eexists. split; [apply get_mro_parameters_ok; by vm_compute|].
    split; by vm_compute.
Qed.

Lemma mro_parameters_union_witness :
  (∃ s, get_mro_parameters (Some <$> mro_Child) = Ok s ∧
        ∀ p, p ∈ s ↔
             ∃ params, params ∈ mro_Child ∧ p ∈ params ∧
                       is_variadic p = false) ∧
  get_mro_parameters [Some Parent; None; Some object_sig] = Raise ValueError.
Proof.
  split.
  - apply (proj1 mro_parameters_union mro_Child).
    by apply (bool_decide_unpack _).
  - apply (proj1 (proj2 mro_parameters_union)).
    apply elem_of_cons. right. apply elem_of_cons. by left.
Defined.

(** C9 as written fails on a class with a base that has no signature, as
    the built-in [dict] ([None] below, in the resolution order of a class
    that derives from [InstancingArgsTracker] and [dict]): the call raises
    instead of returning the parameters of the other classes. *)
Lemma get_mro_parameters_raises_without_signature :
  get_mro_parameters
    [Some [req "a"]; Some Tracker_sig; Some object_sig; Some object_sig;
     None; Some object_sig]
  = Raise ValueError.
Proof. reflexivity. Qed.

(** Two parameters that differ in their annotation only are two elements,
    and a parameter with an unhashable default cannot go into the set. *)
Example get_mro_parameters_annotation_and_hash :
  (∃ s, get_mro_parameters
          [Some [mkParam "a" POSITIONAL_OR_KEYWORD Empty (PyStr "int")];
           Some [req "a"]] = Ok s ∧ size s = 2) ∧
  get_mro_parameters [Some [opt "a" (PyUnhashable "[]")]] = Raise TypeError.
Proof.
  split; [|reflexivity].
  eexists. split; [by apply (get_mro_parameters_ok [_; _])|by vm_compute].
Qed.

End RecorderFacts.

(** ** The [metadata] property *)

Module InstanceFacts.

Import Instance.

Lemma construct_inv h mro args kwargs inst h1 :
  construct h mro args kwargs = Ok (inst, h1) →
  ∃ data, InstancingArgsTracker.post_init mro args kwargs = Ok data ∧
          inst = mkInstance (Some (fresh (dom h))) ∧
          h1 = <[fresh (dom h) := data]> h.
Proof.
  unfold construct, store_metadata.
  destruct (InstancingArgsTracker.post_init mro args kwargs) as [data|]; [|done].
  intros [= <- <-]. by exists data.
Qed.

(** C8 (amended): after construction, rebinding the attribute [metadata]
    raises (the property has no setter), but what the property returns is
    the instance's own dictionary and not a read-only view: assigning an item
    through it succeeds, and the next read of [metadata] shows the new
    value. *)
Theorem metadata_view_aliases h mro args kwargs inst h1 :
  construct h mro args kwargs = Ok (inst, h1) →
  (∀ x, set_metadata inst x = Raise AttributeError) ∧
  (∀ k v, ∃ h2, metadata_setitem h1 inst k v = Ok h2 ∧
                metadata_getitem h2 inst k = Ok v).
Proof.
  intros (data & _ & -> & ->)%construct_inv. split; [done|].
  intros k v. unfold metadata_setitem, metadata_getitem, metadata. cbn.
  unfold dict_setitem, dict_getitem. rewrite lookup_insert_eq.
  eexists. split; [reflexivity|].
  by rewrite !lookup_insert_eq.
Qed.

Lemma metadata_view_aliases_witness :
  ∃ inst h1,
    construct ∅ InstancingArgsTracker.mro_Parent
      [PyStr "argp1"; PyStr "argp2"; PyStr "argp3"] ∅ = Ok (inst, h1) ∧
    (∀ x, set_metadata inst x = Raise AttributeError) ∧
    (∀ k v, ∃ h2, metadata_setitem h1 inst k v = Ok h2 ∧
                  metadata_getitem h2 inst k = Ok v).
Proof.
  eexists _, _.
  assert (∀ P Q : Prop, P → (P → Q) → P ∧ Q) as Hand by tauto.
  apply Hand; [vm_compute; reflexivity|].
  apply metadata_view_aliases.
Defined.

(** C8 as written fails: an item assignment through [metadata] does not
    raise, and it changes what [metadata] shows. *)
Lemma metadata_item_assignment_succeeds :
  ∃ inst h1 h2,
    construct ∅ InstancingArgsTracker.mro_Parent
      [PyStr "argp1"; PyStr "argp2"; PyStr "argp3"] ∅ = Ok (inst, h1) ∧
    metadata_getitem h1 inst "p1" = Ok (PyStr "argp1") ∧
    metadata_setitem h1 inst "p1" (PyStr "changed") = Ok h2 ∧
    metadata_getitem h2 inst "p1" = Ok (PyStr "changed").
Proof.
  eexists _, _, _. split; [vm_compute; reflexivity|].
  split; [vm_compute; reflexivity|].
  split; vm_compute; reflexivity.
Qed.

End InstanceFacts.

(** ** The hook protocol *)

Module CallPostInitFacts.

Import CallPostInit.

Lemma run_calls_silent call packs evs :
  (∀ a k evs, call a k = Ok evs → Forall (λ e, is_post_init e = false) evs) →
  run_calls call packs = Ok evs →
  Forall (λ e, is_post_init e = false) evs.
Proof.
  intros Hcall. revert evs. induction packs as [|ak packs IH]; intros evs; cbn.
  - intros [= <-]. constructor.
  - destruct (call ak.1 ak.2) as [evs1|] eqn:H1; [|done]. cbn.
    destruct (run_calls call packs) as [evs2|]; [|done]. cbn.
    intros [= <-]. apply list.Forall_app. split; [by eapply Hcall|by apply IH].
Qed.

Lemma call_value_silent f args kwargs evs :
  call_value f args kwargs = Ok evs →
  Forall (λ e, is_post_init e = false) evs.
Proof. destruct f; cbn; try done. intros [= <-]. by repeat constructor. Qed.

(** The wrappers of the classes other than [type(self)] stay silent,
    whatever they are called with. *)
Lemma less_derived_wrappers_silent mro ty args kwargs evs :
  ty ∉ cname <$> mro →
  call_init mro ty args kwargs = Ok evs →
  Forall (λ e, is_post_init e = false) evs.
Proof.
  revert args kwargs evs.
  induction mro as [|c bases IH]; intros args kwargs evs Hty.
  - cbn. intros [= <-]. constructor.
  - rewrite fmap_cons in Hty. apply not_elem_of_cons in Hty as [Hne Hty].
    cbn [call_init].
    assert (∀ a k evs,
              match own_init c with
              | Some body =>
                  bind (run_calls (call_init bases ty) (body a k)) (λ evs,
                    Ok (Body (cname c) a k :: evs))
              | None => call_init bases ty a k
              end = Ok evs →
              Forall (λ e, is_post_init e = false) evs) as Horig.
    { intros a k evs'. destruct (own_init c) as [body|]; [|by apply IH].
      destruct (run_calls _ _) as [evs1|] eqn:Hcalls; [|done]. cbn.
      intros [= <-]. constructor; [done|].
      eapply run_calls_silent; [|exact Hcalls]. intros a' k' evs''. by apply IH. }
    destruct (participating c); [|by apply Horig].
    rewrite bool_decide_eq_false_2 by done.
    destruct (kwargs !! "init") as [init|].
    + destruct (call_value _ _ _) as [evs1|] eqn:Hcall; [|done]. cbn.
      intros [= <-]. rewrite app_nil_r. by eapply call_value_silent.
    + match goal with
      | |- bind ?r _ = _ → _ => destruct r as [evs1|] eqn:Hcall; [|done]
      end.
      cbn. intros [= <-]. rewrite app_nil_r. by eapply Horig.
Qed.

(** X9: apart from the keyword [init], the protocol is the documented one:
    in every construction of an instance of a participating class whose keyword
    arguments do not use the name [init], the hook is invoked exactly once,
    by the wrapper of the class that is the exact type of the instance, as
    the last step, after everything the initializers of the chain do, and
    with the positional and keyword arguments of the construction call; no
    wrapper of a less derived class invokes it. *)
Lemma hook_called_once c bases args kwargs trace :
  participating c = true →
  cname c ∉ cname <$> bases →
  kwargs !! "init" = None →
  construct (c :: bases) args kwargs = Ok trace →
  ∃ evs,
    trace = evs ++ [PostInit (cname c) args kwargs] ∧
    Forall (λ e, is_post_init e = false) evs.
Proof.
  intros Hpart Hfresh Hinit. unfold construct. cbn [call_init].
  rewrite Hpart, Hinit, bool_decide_eq_true_2 by done.
  rewrite delete_id by done.
  match goal with
  | |- bind ?r _ = _ → _ => destruct r as [evs|] eqn:Horig; [|done]
  end.
  cbn. intros [= <-]. exists evs. split; [done|].
  destruct (own_init c) as [body|].
  - destruct (run_calls _ _) as [evs1|] eqn:Hcalls; [|done].
    cbn in Horig. injection Horig as <-. constructor; [done|].
    eapply run_calls_silent; [|exact Hcalls].
    intros a k evs'. by apply less_derived_wrappers_silent.
  - by eapply less_derived_wrappers_silent.
Qed.

Lemma hook_called_once_witness :
  let args := [PyInt 1; PyInt 2; PyInt 3] in
  let trace := [Body "Grandchild" args ∅; Body "Child" [PyInt 3] ∅;
                Body "Parent" [] ∅; PostInit "Grandchild" args ∅] in
  construct [Grandchild_cls; Child_cls; Parent_cls; Tracker_cls] args ∅
  = Ok trace ∧
  ∃ evs, trace = evs ++ [PostInit "Grandchild" args ∅] ∧
         Forall (λ e, is_post_init e = false) evs.
Proof.
  intros args trace. split; [reflexivity|].
  apply (hook_called_once Grandchild_cls [Child_cls; Parent_cls; Tracker_cls]
           args ∅).
  - reflexivity.
  - vm_compute. intros H.
    repeat (apply elem_of_cons in H as [H|H]; [discriminate H|]).
    by apply elem_of_nil in H.
  - reflexivity.
  - reflexivity.
Defined.

(** C1: the code departs from the claim when the construction call has a
    keyword [init].  The wrapper takes that keyword for the initializer to
    call: the initializer chain of the class does not run, and the hook is
    invoked with the keyword arguments less [init], not with those of the
    call.  On [Subclass] of the test suite, called with [10] and
    [init=f]: *)
Theorem init_keyword_not_passed_through :
  let kwargs : dict := {["init" := PyCallable "f"]} in
  construct [Subclass; Superclass] [PyInt 10] kwargs
  = Ok [Called "f" [PyInt 10] ∅; PostInit "Subclass" [PyInt 10] ∅] ∧
  kwargs ≠ ∅ ∧
  construct [Subclass; Superclass] [PyInt 10] ∅
  = Ok [Body "Superclass" [PyInt 10] ∅; PostInit "Subclass" [PyInt 10] ∅].
Proof.
  split; [vm_compute; reflexivity|]. split; [|reflexivity].
  intros Heq. assert (({["init" := PyCallable "f"]} : dict) !! "init" = None) as H
    by (by rewrite Heq).
  vm_compute in H. discriminate H.
Qed.

(** The test [test_init_subclass]: building a [Superclass] calls no hook,
    building a [Subclass] calls it once, after the inherited initializer. *)
Example init_subclass_test :
  construct [Superclass] [PyInt 10] ∅ = Ok [Body "Superclass" [PyInt 10] ∅] ∧
  construct [Subclass; Superclass] [PyInt 10] ∅
  = Ok [Body "Superclass" [PyInt 10] ∅; PostInit "Subclass" [PyInt 10] ∅].
Proof. split; reflexivity. Qed.

End CallPostInitFacts.

(** ** The registry *)

Module TrackedInstancesFacts.

Import TrackedInstances.

Lemma run_snoc h x : run (h ++ [x]) = step (run h) x.
Proof. unfold run. by rewrite foldl_app. Qed.

Lemma built_snoc h x :
  built (h ++ [x]) = built h + (if is_new x then 1 else 0).
Proof.
  unfold built. rewrite list.filter_app, length_app. f_equal.
  destruct x; reflexivity.
Qed.

(** How a list ending in [x] splits around one of its elements. *)
Lemma snoc_split (h h1 h2 : list op) x y :
  h ++ [x] = h1 ++ y :: h2 →
  (h2 = [] ∧ h1 = h ∧ y = x) ∨ (∃ h2', h2 = h2' ++ [x] ∧ h = h1 ++ y :: h2').
Proof.
  destruct h2 as [|z h2' _] using rev_ind.
  - intros [-> ->]%app_inj_tail. by left.
  - rewrite app_comm_cons, app_assoc. intros [-> ->]%app_inj_tail.
    right. by exists h2'.
Qed.

Lemma live_instantiated h c o : live h c o → instantiated h c.
Proof.
  intros (h1 & h2 & -> & _ & _). unfold instantiated.
  apply elem_of_app. right. apply elem_of_cons. by left.
Qed.

Lemma live_snoc_new h c c' o :
  live (h ++ [New c']) c o ↔ live h c o ∨ (c = c' ∧ o = mkObj (built h) c').
Proof.
  split.
  - intros (h1 & h2 & Heq & Ho & Hrec).
    apply snoc_split in Heq as [(-> & -> & [= ->])|(h2' & -> & ->)].
    + by right.
    + left. exists h1, h2'. split; [done|]. split; [done|].
      intros Hin. apply Hrec, elem_of_app. by left.
  - intros [(h1 & h2 & -> & Ho & Hrec)|[-> ->]].
    + exists h1, (h2 ++ [New c']). split; [by rewrite <- app_assoc|].
      split; [done|]. intros [Hin|Hin]%elem_of_app; [done|].
      by apply list_elem_of_singleton in Hin.
    + exists h, []. split; [done|]. split; [done|]. by intros ?%elem_of_nil.
Qed.

Lemma live_snoc_reclaim h c o o' :
  live (h ++ [Reclaim o']) c o ↔ live h c o ∧ o ≠ o'.
Proof.
  split.
  - intros (h1 & h2 & Heq & Ho & Hrec).
    apply snoc_split in Heq as [(_ & _ & [=])|(h2' & -> & ->)].
    split.
    + exists h1, h2'. split; [done|]. split; [done|].
      intros Hin. apply Hrec, elem_of_app. by left.
    + intros <-. apply Hrec, elem_of_app. right. by apply list_elem_of_singleton.
  - intros [(h1 & h2 & -> & Ho & Hrec) Hne].
    exists h1, (h2 ++ [Reclaim o']). split; [by rewrite <- app_assoc|].
    split; [done|]. intros [Hin|Hin]%elem_of_app; [done|].
    apply list_elem_of_singleton in Hin. congruence.
Qed.

Lemma instantiated_snoc h c x :
  instantiated (h ++ [x]) c ↔ instantiated h c ∨ x = New c.
Proof.
  unfold instantiated. rewrite elem_of_app, list_elem_of_singleton.
  split; intros [?|?]; auto.
Qed.

(** The registry after a history: the counter counts the objects built,
    a class has an entry exactly when it has been instantiated, and the
    entry holds exactly its live instances. *)
Lemma run_invariant h :
  next_id (run h) = built h ∧
  ∀ c, match instances (run h) !! c with
       | None => ¬ instantiated h c
       | Some s => instantiated h c ∧ ∀ o, o ∈ s ↔ live h c o
       end.
Proof.
  induction h as [|x h [IHid IH]] using rev_ind.
  - split; [done|]. intros c. cbn. rewrite lookup_empty.
    unfold instantiated. by intros ?%elem_of_nil.
  - rewrite run_snoc, built_snoc. destruct x as [c'|o']; cbn.
    + split; [lia|]. intros c. rewrite IHid.
      destruct (decide (c = c')) as [->|Hne].
      * rewrite lookup_insert_eq. split; [apply instantiated_snoc; by right|].
        intros o. rewrite live_snoc_new, elem_of_union, elem_of_singleton.
        specialize (IH c'). destruct (instances (run h) !! c') as [s|].
        -- destruct IH as [_ IH]. rewrite IH.
           split; [intros [?|?]; [by left|by right]|].
           intros [?|[_ ?]]; [by left|by right].
        -- split; [intros [?%not_elem_of_empty|]; [done|by right]|].
           intros [Hl%live_instantiated|[_ ->]]; [done|by right].
      * rewrite lookup_insert_ne by done. specialize (IH c).
        destruct (instances (run h) !! c) as [s|].
        -- destruct IH as [Hi IH]. split; [apply instantiated_snoc; by left|].
           intros o. rewrite live_snoc_new, IH.
           split; [by left|]. intros [?|[? _]]; [done|congruence].
        -- intros [?|[= ?]]%instantiated_snoc; [done|congruence].
    + split; [lia|]. intros c. rewrite lookup_fmap. specialize (IH c).
      destruct (instances (run h) !! c) as [s|]; cbn.
      * destruct IH as [Hi IH]. split; [apply instantiated_snoc; by left|].
        intros o. rewrite live_snoc_reclaim, elem_of_difference, elem_of_singleton.
        by rewrite IH.
      * by intros [?|[=]]%instantiated_snoc.
Qed.


(** The test [test_get_instances]. *)
Example get_instances_test :
  let p1 := mkObj 0 "Parent" in
  let p2 := mkObj 1 "Parent" in
  let value o := if decide (o = p1) then 10%Z else 13%Z in
  get_instances (run []) "Parent" (λ x, bool_decide (value x = 10%Z))
  = Raise AttributeError ∧
  get_instances (run [New "Parent"; New "Parent"]) "Parent"
    (λ x, bool_decide (value x = 10%Z)) = Ok {[p1]} ∧
  get_instances (run [New "Parent"; New "Parent"]) "Parent"
    (λ x, bool_decide (value x = 13%Z)) = Ok {[p2]}.
Proof. repeat split; vm_compute; reflexivity. Qed.

(** *** [inst_and_subcls_inst] *)

Lemma hierarchy_induction (P : hierarchy → Prop) :
  (∀ c subs, Forall P subs → P (Class c subs)) → ∀ t, P t.
Proof.
  intros Hstep. fix IH 1. intros [c subs]. apply Hstep.
  induction subs as [|t subs IHsubs]; constructor; [apply IH|apply IHsubs].
Qed.

Lemma collect_loop_spec h call exclude subs inst :
  Forall (λ t, Forall (instantiated h) (collected exclude t) →
               collects h exclude t (call t)) subs →
  Forall (instantiated h)
    (flat_map (λ subcls, if bool_decide (class_of subcls ∈ exclude) then []
                         else collected exclude subcls) subs) →
  ∃ l, collect_loop call exclude subs inst = Ok l ∧
       ∀ o, o ∈ l ↔
            o ∈ inst ∨
            ∃ c, c ∈ flat_map (λ subcls,
                     if bool_decide (class_of subcls ∈ exclude) then []
                     else collected exclude subcls) subs ∧ live h c o.
Proof.
  revert inst. induction subs as [|t subs IH]; intros inst Hcall Hinst.
  - exists inst. split; [done|]. intros o. split; [by left|].
    intros [?|(c & ?%elem_of_nil & _)]; done.
  - apply list.Forall_cons in Hcall as [Ht Hcall].
    cbn [flat_map] in Hinst |- *. cbn [collect_loop].
    destruct (bool_decide (class_of t ∈ exclude)).
    + cbn [app] in Hinst |- *. by apply IH.
    + apply list.Forall_app in Hinst as [Hinst_t Hinst].
      destruct (Ht Hinst_t) as (s & -> & Hs). cbn [bind].
      destruct (IH (inst ++ elements s) Hcall Hinst) as (l & -> & Hl).
      exists l. split; [done|]. intros o.
      rewrite Hl, !elem_of_app, elem_of_elements, Hs. split.
      * intros [[?|(c & Hc & Hlive)]|(c & Hc & Hlive)]; [by left|..];
          right; exists c; rewrite elem_of_app; auto.
      * intros [?|(c & [Hc|Hc]%elem_of_app & Hlive)]; [by left; left|..].
        -- left. right. by exists c.
        -- right. by exists c.
Qed.

(** Where every collected class has been instantiated, the method does
    return the union of the claim. *)
Lemma inst_and_subcls_inst_registered h exclude t :
  ∀ bases,
    Forall (instantiated h) (collected exclude t) →
    collects h exclude t (inst_and_subcls_inst (run h) bases exclude t).
Proof.
  induction t as [c subs IH] using hierarchy_induction. intros bases Hinst.
  cbn [collected] in Hinst. apply list.Forall_cons in Hinst as [Hc Hinst].
  cbn [inst_and_subcls_inst getattr_instances].
  destruct (run_invariant h) as [_ Hinv]. specialize (Hinv c).
  destruct (instances (run h) !! c) as [s0|]; [|done].
  destruct Hinv as [_ Hs0]. cbn [bind].
  destruct (collect_loop_spec h
              (inst_and_subcls_inst (run h) (c :: bases) exclude)
              exclude subs (elements s0)) as (l & -> & Hl).
  - eapply list.Forall_impl; [exact IH|]. intros t Ht. apply Ht.
  - done.
  - cbn [bind]. eexists. split; [reflexivity|]. intros o.
    rewrite elem_of_list_to_set, Hl, elem_of_elements, Hs0. cbn [collected].
    split.
    + intros [Hlive|(c' & Hc' & Hlive)].
      * exists c. split; [apply elem_of_cons; by left|done].
      * exists c'. split; [apply elem_of_cons; by right|done].
    + intros (c' & [->|Hc']%elem_of_cons & Hlive); [by left|].
      right. by exists c'.
Qed.

(** C7: the code departs from the claim.  With one [Parent] instance and
    no [Child] instance, [Child.inst_and_subcls_inst()] finds the registry
    of [Parent] through attribute lookup and returns the [Parent] instance,
    which is no instance of [Child] nor of a subclass of it; and with one
    [Child] instance and no [Parent] instance, the call on [Parent] raises
    instead of returning the [Child] instance. *)
Theorem inst_and_subcls_inst_inherited_registry :
  let p1 := mkObj 0 "Parent" in
  let c1 := mkObj 0 "Child" in
  inst_and_subcls_inst (run [New "Parent"]) ["Parent"] [] (Class "Child" [])
  = Ok {[p1]} ∧
  (∀ o, ¬ live [New "Parent"] "Child" o) ∧
  inst_and_subcls_inst (run [New "Child"]) [] []
    (Class "Parent" [Class "Child" []])
  = Raise AttributeError ∧
  live [New "Child"] "Child" c1.
Proof.
  intros p1 c1. split; [vm_compute; reflexivity|]. split.
  - intros o Hl%live_instantiated. unfold instantiated in Hl.
    apply list_elem_of_singleton in Hl. discriminate Hl.
  - split; [vm_compute; reflexivity|].
    exists [], []. split; [done|]. split; [done|]. by intros ?%elem_of_nil.
Qed.

(** The test [test_inst_listing], where every class has instances. *)
Example inst_listing_test :
  let tree := Class "Parent" [Class "Child" [Class "Grandchild" []]] in
  let w := run [New "Parent"; New "Parent"; New "Child"; New "Child";
                New "Grandchild"] in
  inst_and_subcls_inst w [] [] tree
  = Ok {[mkObj 0 "Parent"; mkObj 1 "Parent"; mkObj 2 "Child";
         mkObj 3 "Child"; mkObj 4 "Grandchild"]} ∧
  inst_and_subcls_inst w [] ["Grandchild"] tree
  = Ok {[mkObj 0 "Parent"; mkObj 1 "Parent"; mkObj 2 "Child";
         mkObj 3 "Child"]}.
Proof. split; vm_compute; reflexivity. Qed.

End TrackedInstancesFacts.

(** ** More on the recorder *)

Module RecorderMore.

Import InstancingArgsTracker RecorderFacts.

Lemma walk_shortcut pre last bases bases' (data : dict) args :
  has_variadic last = false →
  walk (pre ++ last :: bases) data args = walk (pre ++ last :: bases') data args.
Proof.
  intros Hlast. revert data args.
  induction pre as [|c pre IH]; intros data args; cbn [app walk].
  - destruct (visit last data args) as [[d a]|]; [|done]. cbn [bind].
    by rewrite Hlast.
  - destruct (visit c data args) as [[d a]|]; [|done]. cbn [bind].
    destruct (has_variadic c); [apply IH|done].
Qed.

(** X3: the walk stops at the first class without collectors: what the
    resolution order holds after that class has no bearing on the result. *)
Theorem post_init_ignores_bases_after_stop pre last bases bases' args kwargs :
  has_variadic last = false →
  post_init (pre ++ last :: bases) args kwargs
  = post_init (pre ++ last :: bases') args kwargs.
Proof.
  intros Hlast. unfold post_init.
  by rewrite (walk_shortcut pre last bases bases').
Qed.

Lemma post_init_ignores_bases_after_stop_witness :
  post_init ([Grandchild; Child] ++ Parent :: [Tracker_sig; object_sig])
    [PyInt 1; PyInt 2] ∅
  = post_init ([Grandchild; Child] ++ Parent :: [[req "never_seen"]])
    [PyInt 1; PyInt 2] ∅.
Proof. by apply post_init_ignores_bases_after_stop. Defined.

(** X4: on a hierarchy of plain signatures with pairwise distinct,
    unreserved parameter names, called with no more positional values than
    the visited classes declare parameters, the recorder stores the keyword
    arguments other than those named [cls], [self], [args] or [kwargs] over
    the positional values over the declared defaults: the positional values
    go to the slots of the visited classes in order, most derived class
    first, and a slot beyond them keeps its default. *)
Theorem post_init_plain pre last bases args kwargs :
  Forall plain_sig (pre ++ [last]) →
  Forall (λ params, has_variadic params = true) pre →
  has_variadic last = false →
  NoDup (slot_names (pre ++ [last])) →
  Forall (λ k, k ∉ reserved) (slot_names (pre ++ [last])) →
  length args ≤ length (slots (pre ++ [last])) →
  post_init (pre ++ last :: bases) args kwargs
  = Ok (filter (λ kv, kv.1 ∉ reserved) kwargs
        ∪ list_to_map (fill (slots (pre ++ [last])) args)).
Proof.
  intros Hplain Hvar Hlast Hnd Hres Hlen. unfold post_init.
  rewrite walk_plain by done. cbn [bind]. rewrite (right_id_L ∅ (∪)).
  f_equal. apply map_eq. intros k. rewrite pop_reserved_lookup.
  rewrite !lookup_union.
  case_decide as Hk.
  - assert ((list_to_map (fill (slots (pre ++ [last])) args) : dict) !! k
            = None) as ->.
    { apply not_elem_of_list_to_map_1. rewrite fill_fst. intros Hin.
      by apply (proj1 (Forall_forall _ _) Hres k); [apply list_elem_of_In|]. }
    rewrite map_lookup_filter_None_2; [done|].
    right. intros v _ Hv. by apply Hv.
  - destruct (kwargs !! k) as [v|] eqn:Hkv.
    + by rewrite (map_lookup_filter_Some_2 _ _ k v) by done.
    + by rewrite map_lookup_filter_None_2 by (by left).
Qed.

Lemma post_init_plain_witness :
  post_init ([Child] ++ Parent ::
             [Tracker_sig; object_sig; object_sig; object_sig])
    [PyStr "A"; PyStr "B"; PyStr "C"; PyStr "D"; PyStr "E"]
    {["p3" := PyStr "K"]}
  = Ok (filter (λ kv, kv.1 ∉ reserved) ({["p3" := PyStr "K"]} : dict)
        ∪ list_to_map (fill (slots ([Child] ++ [Parent]))
                         [PyStr "A"; PyStr "B"; PyStr "C"; PyStr "D";
                          PyStr "E"])).
Proof.
  apply post_init_plain.
  - by apply (bool_decide_unpack _).
  - by apply (bool_decide_unpack _).
  - reflexivity.
  - by apply (bool_decide_unpack _).
  - by apply (bool_decide_unpack _).
  - vm_compute. lia.
Defined.

(** A keyword named [args] is dropped, the others are recorded. *)
Example child_with_keywords :
  post_init mro_Child
    [PyStr "A"; PyStr "B"; PyStr "C"; PyStr "D"; PyStr "E"]
    (list_to_map [("p3", PyStr "K"); ("args", PyInt 0)])
  = Ok (list_to_map [("c1", PyStr "A"); ("c2", PyStr "B"); ("c3", PyStr "C");
                     ("p1", PyStr "D"); ("p2", PyStr "E");
                     ("p3", PyStr "K")]).
Proof. vm_compute. reflexivity. Qed.

(** The case of the test suite's [Child] built from five positional
    values: [p3] keeps its default. *)
Example child_omitting_p3 :
  post_init mro_Child
    [PyStr "A"; PyStr "B"; PyStr "C"; PyStr "D"; PyStr "E"] ∅
  = Ok (list_to_map [("c1", PyStr "A"); ("c2", PyStr "B"); ("c3", PyStr "C");
                     ("p1", PyStr "D"); ("p2", PyStr "E");
                     ("p3", PyStr "vp3")]).
Proof. vm_compute. reflexivity. Qed.

Lemma fill_beyond sl args i p :
  sl !! i = Some p → length args ≤ i → (name p, default p) ∈ fill sl args.
Proof.
  revert args i. induction sl as [|q sl IH]; intros args i Hp Hi; [done|].
  destruct args as [|a args].
  - rewrite fill_nil. apply list_elem_of_fmap. exists p. split; [done|].
    by eapply list_elem_of_lookup_2.
  - destruct i as [|i]; [cbn in Hi; lia|]. cbn in Hp, Hi |- *.
    apply elem_of_cons. right. apply (IH args i); [done|lia].
Qed.

(** X5: a required parameter of the class where the walk stops, reached
    with too few positional values left and named by no keyword, is not an
    error for the recorder: it is recorded with the sentinel
    [inspect.Parameter.empty].  This is what a class records whose
    initializer passes values of its own to the initializer of its base. *)
Theorem missing_required_recorded_empty pre c bases args kwargs d rest i p :
  Forall (λ params, has_variadic params = true) pre →
  walk pre ∅ args = Ok (d, rest) →
  has_variadic c = false →
  NoDup (name <$> c) →
  arg_of c !! i = Some p →
  length rest ≤ i →
  kwargs !! name p = None →
  name p ∉ reserved →
  ∃ md, post_init (pre ++ c :: bases) args kwargs = Ok md ∧
        md !! name p = Some Empty.
Proof.
  intros Hpre Hwalk Hv Hnd Hp Hi Hkw Hres.
  assert (length rest ≤ length (arg_of c)) as Hlen.
  { apply lookup_lt_Some in Hp. lia. }
  unfold post_init.
  rewrite (walk_prefix pre (c :: bases) ∅ args d rest) by done.
  cbn [walk]. rewrite visit_few_args by done.
  cbn [bind]. rewrite Hv. eexists. split; [reflexivity|].
  rewrite pop_reserved_lookup, decide_False by done.
  rewrite lookup_union_r by done.
  assert (default p = Empty) as Hd.
  { apply list_elem_of_lookup_2, list_elem_of_filter in Hp as [[Hd _] _].
    by destruct (default p). }
  rewrite <- Hd. apply update_lookup_in.
  - rewrite fill_fst. by apply (NoDup_names_filter _).
  - by eapply fill_beyond.
Qed.

(** [Sub] takes [c1] and builds its base [Parent] from values of its own:
    [Sub(5)] is a legal call, and the record shows [p1] as empty. *)
Lemma missing_required_recorded_empty_witness :
  let Sub := [req "c1"; starstar "kwargs"] in
  call_initializer Sub [PyInt 5] ∅ = Ok tt ∧
  ∃ md, post_init ([Sub] ++ mro_Parent) [PyInt 5] ∅ = Ok md ∧
        md !! "p1" = Some Empty.
Proof.
  intros Sub. split; [reflexivity|].
  apply (missing_required_recorded_empty [Sub] Parent _ [PyInt 5] ∅
           {["c1" := PyInt 5]} [] 0 (req "p1")).
  - by apply (bool_decide_unpack _).
  - vm_compute. reflexivity.
  - reflexivity.
  - by apply (bool_decide_unpack _).
  - reflexivity.
  - cbn. lia.
  - reflexivity.
  - by apply (bool_decide_unpack _).
Defined.

Lemma mro_parameter_list_app mro1 mro2 :
  mro_parameter_list (mro1 ++ mro2)
  = bind (mro_parameter_list mro1) (λ l1,
      bind (mro_parameter_list mro2) (λ l2, Ok (l1 ++ l2))).
Proof.
  induction mro1 as [|base mro1 IH]; cbn [app mro_parameter_list bind].
  - by destruct (mro_parameter_list mro2).
  - destruct base as [params|]; [|done]. cbn [signature_of bind].
    rewrite IH.
    destruct (mro_parameter_list mro1) as [l1|]; [|done].
    destruct (mro_parameter_list mro2) as [l2|]; [|done].
    cbn [bind]. by rewrite (assoc_L (++)).
Qed.

(** X6: [get_mro_parameters] of a resolution order put together from two
    parts returns exactly when it returns on both parts, and its result is
    then the union of the two results; in particular a class reports all
    the parameters its base reports. *)
Theorem get_mro_parameters_app mro1 mro2 s :
  get_mro_parameters (mro1 ++ mro2) = Ok s ↔
  ∃ s1 s2, get_mro_parameters mro1 = Ok s1 ∧
           get_mro_parameters mro2 = Ok s2 ∧ s = s1 ∪ s2.
Proof.
  unfold get_mro_parameters. rewrite mro_parameter_list_app.
  destruct (mro_parameter_list mro1) as [l1|e1]; cbn [bind].
  2:{ split; [done|]. by intros (s1 & s2 & ? & _). }
  destruct (mro_parameter_list mro2) as [l2|e2]; cbn [bind].
  2:{ split; [done|]. by intros (s1 & s2 & _ & ? & _). }
  rewrite list.filter_app, forallb_app, list_to_set_app_L.
  destruct (forallb hashable_param (filter _ l1)); cbn [andb].
  2:{ split; [done|]. by intros (s1 & s2 & ? & _). }
  destruct (forallb hashable_param (filter _ l2)).
  2:{ split; [done|]. by intros (s1 & s2 & _ & ? & _). }
  split.
  - intros [= <-]. by eexists _, _.
  - by intros (s1 & s2 & [= <-] & [= <-] & ->).
Qed.

Lemma get_mro_parameters_app_witness :
  ∃ s1 s2, get_mro_parameters (Some <$> [Child]) = Ok s1 ∧
           get_mro_parameters (Some <$> mro_Parent) = Ok s2 ∧
           list_to_set
             (filter (λ v, is_variadic v = false) (concat mro_Child))
           = s1 ∪ s2.
Proof.
  apply (proj1 (get_mro_parameters_app (Some <$> [Child])
                  (Some <$> mro_Parent) _)).
  by apply (get_mro_parameters_ok mro_Child).
Defined.

End RecorderMore.

(** ** More on the [metadata] property *)

Module InstanceMore.

Import Instance InstanceFacts.

(** X7: what [metadata] shows after construction is what the recorder
    computed: reading a recorded key gives its value, reading any other key
    raises [KeyError]. *)
Theorem metadata_reads_recorded h mro args kwargs inst h1 :
  construct h mro args kwargs = Ok (inst, h1) →
  ∃ md, InstancingArgsTracker.post_init mro args kwargs = Ok md ∧
        ∀ k, metadata_getitem h1 inst k
             = match md !! k with
               | Some v => Ok v
               | None => Raise KeyError
               end.
Proof.
  intros (md & Hmd & -> & ->)%construct_inv. exists md. split; [done|].
  intros k. unfold metadata_getitem, metadata, dict_getitem. cbn.
  by rewrite lookup_insert_eq.
Qed.

Lemma metadata_reads_recorded_witness :
  ∃ inst h1,
    construct ∅ InstancingArgsTracker.mro_Parent
      [PyStr "argp1"; PyStr "argp2"] ∅ = Ok (inst, h1) ∧
    ∃ md, InstancingArgsTracker.post_init InstancingArgsTracker.mro_Parent
            [PyStr "argp1"; PyStr "argp2"] ∅ = Ok md ∧
          ∀ k, metadata_getitem h1 inst k
               = match md !! k with
                 | Some v => Ok v
                 | None => Raise KeyError
                 end.
Proof.
  eexists _, _.
  assert (∀ P Q : Prop, P → (P → Q) → P ∧ Q) as Hand by tauto.
  apply Hand; [vm_compute; reflexivity|].
  apply metadata_reads_recorded.
Defined.

(** X8: every instance gets a dictionary of its own: an item assignment
    through the [metadata] of one instance leaves what the [metadata] of an
    instance built later shows as it was. *)
Theorem metadata_not_shared h mro1 args1 kwargs1 i1 h1 mro2 args2 kwargs2 i2 h2
    k v h3 :
  construct h mro1 args1 kwargs1 = Ok (i1, h1) →
  construct h1 mro2 args2 kwargs2 = Ok (i2, h2) →
  metadata_setitem h2 i1 k v = Ok h3 →
  ∀ k', metadata_getitem h3 i2 k' = metadata_getitem h2 i2 k'.
Proof.
  intros (md1 & _ & -> & ->)%construct_inv (md2 & _ & -> & ->)%construct_inv.
  set (l1 := fresh (dom h)).
  set (l2 := fresh (dom (<[l1 := md1]> h))).
  assert (l1 ≠ l2) as Hne.
  { intros Heq. apply (is_fresh (dom (<[l1 := md1]> h))). fold l2.
    rewrite <- Heq, dom_insert_L. apply elem_of_union. left.
    by apply elem_of_singleton. }
  unfold metadata_setitem, metadata_getitem, metadata, dict_setitem, dict_getitem.
  cbn. rewrite lookup_insert_ne, lookup_insert_eq by done.
  intros [= <-] k'. by rewrite lookup_insert_ne, lookup_insert_eq by done.
Qed.

Lemma metadata_not_shared_witness :
  ∃ i1 h1 i2 h2 h3,
    construct ∅ InstancingArgsTracker.mro_Parent
      [PyInt 1; PyInt 2] ∅ = Ok (i1, h1) ∧
    construct h1 InstancingArgsTracker.mro_Parent
      [PyInt 3; PyInt 4] ∅ = Ok (i2, h2) ∧
    metadata_setitem h2 i1 "p1" (PyInt 9) = Ok h3 ∧
    ∀ k', metadata_getitem h3 i2 k' = metadata_getitem h2 i2 k'.
Proof.
  eexists _, _, _, _, _.
  assert (∀ P Q R S : Prop, P → Q → R → (P → Q → R → S) → P ∧ Q ∧ R ∧ S)
    as Hand by tauto.
  apply Hand; [vm_compute; reflexivity..|].
  apply metadata_not_shared.
Defined.

End InstanceMore.

(** ** More on the hook protocol *)

Module CallPostInitMore.

Import CallPostInit CallPostInitFacts.

(** X10: building an instance of a class that does not derive from
    [CallPostInit] never calls the hook, whatever its bases are. *)
Theorem outsider_never_calls_hook c bases args kwargs trace :
  participating c = false →
  cname c ∉ cname <$> bases →
  construct (c :: bases) args kwargs = Ok trace →
  Forall (λ e, is_post_init e = false) trace.
Proof.
  intros Hpart Hfresh. unfold construct. cbn [call_init]. rewrite Hpart.
  destruct (own_init c) as [body|].
  - destruct (run_calls _ _) as [evs|] eqn:Hcalls; [|done]. cbn.
    intros [= <-]. constructor; [done|].
    eapply run_calls_silent; [|exact Hcalls].
    intros a k evs'. by apply less_derived_wrappers_silent.
  - by apply less_derived_wrappers_silent.
Qed.

Lemma outsider_never_calls_hook_witness :
  construct [Superclass] [PyInt 10] ∅ = Ok [Body "Superclass" [PyInt 10] ∅] ∧
  Forall (λ e, is_post_init e = false) [Body "Superclass" [PyInt 10] ∅].
Proof.
  split; [reflexivity|].
  apply (outsider_never_calls_hook Superclass [] [PyInt 10] ∅).
  - reflexivity.
  - by intros ?%elem_of_nil.
  - reflexivity.
Defined.

End CallPostInitMore.

(** ** More on the registry *)

Module TrackedInstancesMore.

Import TrackedInstances TrackedInstancesFacts.


(** X14: selecting with the conjunction of two selectors gives the
    intersection of what the two selectors give. *)
Theorem get_instances_conjunction w c p q :
  get_instances w c (λ o, p o && q o)
  = match get_instances w c p, get_instances w c q with
    | Ok sp, Ok sq => Ok (sp ∩ sq)
    | _, _ => Raise AttributeError
    end.
Proof.
  unfold get_instances. destruct (instances w !! c) as [s|]; [|done].
  f_equal. apply set_eq. intros o.
  rewrite elem_of_intersection, !elem_of_list_to_set, !list_elem_of_filter.
  rewrite andb_true_iff. tauto.
Qed.

Lemma collect_loop_elems call exclude subs inst :
  Forall (λ t, (class_of t ∉ exclude) → ∃ s, call t = Ok s) subs →
  ∃ l, collect_loop call exclude subs inst = Ok l ∧
       ∀ o, o ∈ l ↔
            o ∈ inst ∨
            ∃ t s, t ∈ subs ∧ (class_of t ∉ exclude) ∧ call t = Ok s ∧ o ∈ s.
Proof.
  revert inst. induction subs as [|t subs IH]; intros inst Hok.
  - exists inst. split; [done|]. intros o. split; [by left|].
    intros [?|(t & s & ?%elem_of_nil & _)]; done.
  - apply list.Forall_cons in Hok as [Ht Hok]. cbn [collect_loop].
    destruct (decide (class_of t ∈ exclude)) as [Hex|Hex].
    + rewrite bool_decide_eq_true_2 by done.
      destruct (IH inst Hok) as (l & -> & Hl). exists l. split; [done|].
      intros o. rewrite Hl. split.
      * intros [?|(t' & s & Hin & ?)]; [by left|].
        right. exists t', s. split; [apply elem_of_cons; by right|done].
      * intros [?|(t' & s & [->|Hin]%elem_of_cons & Hnex & ?)];
          [by left|done|]. right. by exists t', s.
    + rewrite bool_decide_eq_false_2 by done.
      destruct (Ht Hex) as [s Hs]. rewrite Hs. cbn [bind].
      destruct (IH (inst ++ elements s) Hok) as (l & -> & Hl).
      exists l. split; [done|]. intros o.
      rewrite Hl, elem_of_app, elem_of_elements. split.
      * intros [[?|?]|(t' & s' & Hin & ?)]; [by left| |].
        -- right. exists t, s. split; [apply elem_of_cons; by left|done].
        -- right. exists t', s'. split; [apply elem_of_cons; by right|done].
      * intros [?|(t' & s' & [->|Hin]%elem_of_cons & Hnex & Hcall & Ho)].
        -- by left; left.
        -- left. right. congruence.
        -- right. by exists t', s'.
Qed.

Lemma getattr_instances_spec w mro :
  match getattr_instances w mro with
  | Raise e => e = AttributeError ∧ Forall (λ c, instances w !! c = None) mro
  | Ok _ => Exists (λ c, is_Some (instances w !! c)) mro
  end.
Proof.
  induction mro as [|c mro IH]; cbn; [by split|].
  destruct (instances w !! c) as [s|] eqn:Hc.
  - apply List.Exists_cons. left. by rewrite Hc.
  - destruct (getattr_instances w mro) as [s|e].
    + apply List.Exists_cons. by right.
    + destruct IH as [-> IH]. split; [done|]. by constructor.
Qed.

Lemma inst_and_subcls_inst_ok w exclude t :
  ∀ bases,
    (∃ s, getattr_instances w (class_of t :: bases) = Ok s) →
    ∃ s, inst_and_subcls_inst w bases exclude t = Ok s.
Proof.
  induction t as [c subs IH] using hierarchy_induction.
  intros bases [s0 Hs0]. cbn [class_of] in Hs0.
  cbn [inst_and_subcls_inst]. rewrite Hs0. cbn [bind].
  destruct (collect_loop_elems
              (inst_and_subcls_inst w (c :: bases) exclude)
              exclude subs (elements s0)) as (l & -> & _); [|by eexists].
  eapply list.Forall_impl; [exact IH|]. intros t Ht _. apply Ht.
  cbn [getattr_instances].
  destruct (instances w !! class_of t); [by eexists|].
  cbn [getattr_instances] in Hs0. by eexists.
Qed.

(** X15: [inst_and_subcls_inst] raises exactly when the attribute lookup
    [cls.instances] fails for the class it is called on, that is when
    neither the class nor any of its bases has a registry, and then with
    [AttributeError]; no subclass can make it raise. *)
Theorem inst_and_subcls_inst_raises w bases exclude t :
  match inst_and_subcls_inst w bases exclude t with
  | Raise e =>
      e = AttributeError ∧
      Forall (λ c, instances w !! c = None) (class_of t :: bases)
  | Ok _ => Exists (λ c, is_Some (instances w !! c)) (class_of t :: bases)
  end.
Proof.
  pose proof (getattr_instances_spec w (class_of t :: bases)) as Hattr.
  destruct (getattr_instances w (class_of t :: bases)) as [s0|e] eqn:Hs0.
  - destruct (inst_and_subcls_inst_ok w exclude t bases) as [s ->]; [|done].
    by exists s0.
  - destruct t as [c subs]. cbn [class_of] in *.
    cbn [inst_and_subcls_inst]. rewrite Hs0. done.
Qed.





End TrackedInstancesMore.

(** ** [EnumDict] *)

Module EnumDictFacts.

Import EnumDict.




(** The test [test_access_funcs], and [EnumDict] asked about itself: its
    own class methods are neither functions nor methods for [inspect] and
    show up as keys. *)
Example access_funcs_test :
  keys ED = {["KEY1"; "KEY2"; "KEY3"]} ∧
  values ED = {[Plain (PyStr "value1"); Plain (PyStr "value2");
                Plain (PyStr "value3")]} ∧
  keys EnumDict_dict = {["keys"; "values"]}.
Proof. repeat split; vm_compute; reflexivity. Qed.

End EnumDictFacts.
